(** * Room-scoped broadcast engine: adapter patch, broadcast operator and
      acknowledgment aggregation

    Shallow embedding of [src/lib/riugh.ts] (the patched room-membership
    adapter), [src/lib/LoggingSerivce.ts] (the connection logger) and of the
    broadcast operator / remote socket classes, followed by the properties
    stated about them. *)

From Stdlib Require Import ZArith Lia.
From stdpp Require Import gmap strings list.

(** ** Values and small JavaScript notions *)

Definition Room := string.
Definition SocketId := string.
Definition WebSocket := nat.

(** Run-time values that can be passed as event arguments or come back as
    acknowledgments; [VFun] is a callable. *)
Inductive value :=
| VUndefined
| VNull
| VBool (b : bool)
| VNum (n : Z)
| VStr (s : string)
| VFun (f : nat).

Inductive JSError :=
| Error (message : string)
| TypeError (message : string).

(** A call either returns or throws. *)
Inductive Outcome (A : Type) :=
| Return (a : A)
| Throw (e : JSError).
Arguments Return {A} a.
Arguments Throw {A} e.

(** ECMAScript [Set] of strings: no duplicates, iteration in insertion
    order. *)
Module JSSet.
Abbreviation t := (list string) (only parsing).
Definition empty : t := [].
Definition has (x : string) (s : t) : bool := bool_decide (x ∈ s).
Definition add (x : string) (s : t) : t := if has x s then s else s ++ [x].
Definition delete (x : string) (s : t) : t := filter (λ y, y ≠ x) s.
Definition size (s : t) : nat := length s.
Definition of_list (l : list string) : t := foldl (λ s x, add x s) empty l.
(** [s.keys().next().value] *)
Definition first (s : t) : option string := head s.
End JSSet.

(** ** Packets, flags, selectors *)

Inductive PacketType :=
| CONNECT | DISCONNECT | EVENT | ACK | CONNECT_ERROR | BINARY_EVENT | BINARY_ACK.

Record Packet := mkPacket {
  ptype : PacketType;
  pnsp : option string;
  pdata : list value
}.

(** An encoded frame is either a string or a binary buffer. *)
Inductive Frame :=
| TextFrame (s : string)
| BinaryFrame (bytes : list Byte.byte).

Record BroadcastFlags := mkFlags {
  f_volatile : option bool;
  f_compress : option bool;
  f_local : option bool;
  f_timeout : option Z;
  f_expectSingleResponse : option bool
}.

(** The object literal [{}]. *)
Definition noFlags : BroadcastFlags := mkFlags None None None None None.

(** [BroadcastOptions]: [except] and [flags] are optional properties. *)
Record BroadcastOptions := mkOpts {
  o_rooms : JSSet.t;
  o_except : option JSSet.t;
  o_flags : option BroadcastFlags
}.

Record PacketOpts := mkPacketOpts {
  preEncoded : bool;
  po_volatile : option bool;
  po_compress : option bool
}.

(** ** Sockets, adapter state and observable effects *)

(** What the adapter reads of a live socket: [socket.id], [socket.nsp.name],
    [socket.conn.id], [socket.conn.transport.name] and the handle
    [socket.conn.transport.socket]. *)
Record Socket := mkSocket {
  sock_id : SocketId;
  sock_nsp_name : string;
  conn_id : string;
  transport_name : string;
  transport_socket : WebSocket
}.

Record AdapterState := mkAdapter {
  nsp_name : string;
  nsp_sockets : gmap SocketId Socket;
  sids : gmap SocketId JSSet.t;
  rooms : gmap Room JSSet.t
}.

(** Calls made on the collaborators, in program order ([debug] diagnostics
    are not recorded). *)
Inductive Effect :=
| Subscribe (ws : WebSocket) (topic : string)
| Unsubscribe (ws : WebSocket) (topic : string)
| Publish (topic : string) (message : Frame) (isBinary : bool)
| WriteToEngine (socket : SocketId) (frames : list Frame) (opts : PacketOpts)
| LogConnection (namespace socketId : string).

Record World := mkWorld {
  adapter : AdapterState;
  effects : list Effect
}.

Definition perform (e : Effect) (w : World) : World :=
  mkWorld (adapter w) (effects w ++ [e]).

Definition set_adapter (a : AdapterState) (w : World) : World :=
  mkWorld a (effects w).

(** [const SEPARATOR = "\x1f"] *)
Definition SEPARATOR : string := String (Ascii.ascii_of_nat 31) EmptyString.

(** ** The adapter being patched *)

Module BaseAdapter.

Definition members (a : AdapterState) (room : Room) : JSSet.t :=
  default JSSet.empty (rooms a !! room).

Definition join (id : SocketId) (a : AdapterState) (room : Room) : AdapterState :=
  mkAdapter (nsp_name a) (nsp_sockets a)
    (alter (JSSet.add room) id (sids a))
    (<[room := JSSet.add id (members a room)]> (rooms a)).

(** Modelled from the spec: the original [Adapter.prototype.addAll] saved
    by [const { addAll, del, broadcast } = Adapter.prototype], whose body
    is not in the sources. The connection's membership record is created
    on its first call; the connection is added to each room of [rooms]
    with set semantics. *)
Definition addAll (id : SocketId) (rs : JSSet.t) (a : AdapterState) : AdapterState :=
  let a0 :=
    match sids a !! id with
    | Some _ => a
    | None => mkAdapter (nsp_name a) (nsp_sockets a) (<[id := JSSet.empty]> (sids a)) (rooms a)
    end in
  foldl (join id) a0 rs.

(** Modelled from the spec: the original [Adapter.prototype.del], whose
    body is not in the sources. The connection is removed from the room's
    membership set; a room left with zero connections is absent. *)
Definition del (id : SocketId) (room : Room) (a : AdapterState) : AdapterState :=
  mkAdapter (nsp_name a) (nsp_sockets a)
    (alter (JSSet.delete room) id (sids a))
    (match rooms a !! room with
     | None => rooms a
     | Some m =>
         let m' := JSSet.delete id m in
         if decide (m' = []) then delete room (rooms a) else <[room := m']> (rooms a)
     end).

Definition excluded (a : AdapterState) (ex : JSSet.t) (id : SocketId) : bool :=
  JSSet.has id ex || existsb (λ room, JSSet.has id (members a room)) ex.

(** Modelled from the spec: the connections matching [(rooms, except)],
    i.e. the union of all target rooms' connections (every connection when
    there is no target room), minus any connection in an exclusion room or
    in the explicit except set; only live sockets are visited. This is the
    iteration behind the original [Adapter.prototype.apply]. *)
Definition matching (a : AdapterState) (opts : BroadcastOptions) : list Socket :=
  let ex := default JSSet.empty (o_except opts) in
  let candidates :=
    match o_rooms opts with
    | [] => (map_to_list (sids a)).*1
    | rs => foldl (λ acc room, foldl (λ acc id, JSSet.add id acc) acc (members a room)) JSSet.empty rs
    end in
  omap (λ id, nsp_sockets a !! id)
       (filter (λ id, excluded a ex id = false) candidates).

Definition apply (opts : BroadcastOptions) (callback : Socket → World → World)
    (w : World) : World :=
  foldl (λ w socket, callback socket w) w (matching (adapter w) opts).

End BaseAdapter.

(** ** [src/lib/LoggingSerivce.ts] *)

Module LoggingService.
(** [logConnection] formats an entry from the namespace, the socket id and
    the clock and appends it to the log file. *)
Definition logConnection (namespace socketId : string) (w : World) : World :=
  perform (LogConnection namespace socketId) w.
End LoggingService.

(** ** [src/lib/riugh.ts] *)

Definition handleUWebSockets (namespaceName : string) (socket : Socket)
    (isNew : bool) (rs : JSSet.t) (w : World) : World :=
  let websocket := transport_socket socket in
  let w1 := if isNew then perform (Subscribe websocket namespaceName) w else w in
  foldl (λ w room,
           let topic := namespaceName +:+ SEPARATOR +:+ room in
           perform (Subscribe websocket topic) w) w1 rs.

Definition unsubscribeUWebSockets (socket : Socket) (room : Room) (w : World) : World :=
  let websocket := transport_socket socket in
  let topic := sock_nsp_name socket +:+ SEPARATOR +:+ room in
  perform (Unsubscribe websocket topic) w.

Definition handleWsLibrary (namespaceName : string) (socket : Socket)
    (isNew : bool) (rs : JSSet.t) (w : World) : World :=
  let websocket := transport_socket socket in
  let w1 := if isNew then perform (Subscribe websocket namespaceName) w else w in
  foldl (λ w room,
           let topic := namespaceName +:+ SEPARATOR +:+ room in
           perform (Subscribe websocket topic) w) w1 rs.

Definition unsubscribeWsLibrary (socket : Socket) (room : Room) (w : World) : World :=
  let websocket := transport_socket socket in
  let topic := sock_nsp_name socket +:+ SEPARATOR +:+ room in
  perform (Unsubscribe websocket topic) w.

(** The three methods installed by [patchAdapter(app, useWsLibrary)]. *)
Module PatchedAdapter.
Section WithApp.
(** [this.encoder.encode], the packet codec. *)
Variable encode : Packet → list Frame.
Variable useWsLibrary : bool.

Definition addAll (id : SocketId) (rs : JSSet.t) (w : World) : World :=
  let isNew := negb (bool_decide (is_Some (sids (adapter w) !! id))) in
  let w1 := set_adapter (BaseAdapter.addAll id rs (adapter w)) w in
  match nsp_sockets (adapter w1) !! id with
  | None => w1
  | Some socket =>
      let w2 :=
        if useWsLibrary
        then handleWsLibrary (nsp_name (adapter w1)) socket isNew rs w1
        else handleUWebSockets (nsp_name (adapter w1)) socket isNew rs w1 in
      if isNew
      then LoggingService.logConnection (nsp_name (adapter w2)) (sock_id socket) w2
      else w2
  end.

Definition del (id : SocketId) (room : Room) (w : World) : World :=
  let w1 := set_adapter (BaseAdapter.del id room (adapter w)) w in
  match nsp_sockets (adapter w1) !! id with
  | Some socket =>
      if useWsLibrary
      then unsubscribeWsLibrary socket room w1
      else unsubscribeUWebSockets socket room w1
  | None => w1
  end.

(** Modelled from the spec: the original [Adapter.prototype.broadcast]
    (generic path), whose body is not in the sources: the packet is
    encoded once and delivered directly to every matching connection,
    regardless of transport capability. *)
Definition baseBroadcast (packet : Packet) (opts : BroadcastOptions) (w : World) : World :=
  let flags := default noFlags (o_flags opts) in
  let packetOpts := mkPacketOpts true (f_volatile flags) (f_compress flags) in
  let encodedPackets :=
    encode (mkPacket (ptype packet) (Some (nsp_name (adapter w))) (pdata packet)) in
  BaseAdapter.apply opts
    (λ socket, perform (WriteToEngine (sock_id socket) encodedPackets packetOpts)) w.

(** Everything after the early return of [broadcast]. *)
Definition fastPublish (packet : Packet) (opts : BroadcastOptions) (w : World) : World :=
  let flags := default noFlags (o_flags opts) in
  let basePacketOpts := mkPacketOpts true (f_volatile flags) (f_compress flags) in
  let packet' := mkPacket (ptype packet) (Some (nsp_name (adapter w))) (pdata packet) in
  let encodedPackets := encode packet' in
  let topic :=
    match JSSet.first (o_rooms opts) with
    | None => nsp_name (adapter w)
    | Some room => nsp_name (adapter w) +:+ SEPARATOR +:+ room
    end in
  let w1 :=
    foldl (λ w encodedPacket,
             match encodedPacket with
             | TextFrame s => perform (Publish topic (TextFrame ("4" +:+ s)) false) w
             | BinaryFrame _ => perform (Publish topic encodedPacket true) w
             end) w encodedPackets in
  BaseAdapter.apply opts
    (λ socket w,
       if bool_decide (transport_name socket ≠ "websocket")
       then perform (WriteToEngine (sock_id socket) encodedPackets basePacketOpts) w
       else w) w1.

(** [opts.rooms.size <= 1 && opts.except!.size === 0]; reading [size] of
    an absent [except] throws. *)
Definition useFastPublish (opts : BroadcastOptions) : Outcome bool :=
  if bool_decide (JSSet.size (o_rooms opts) ≤ 1)
  then match o_except opts with
       | Some ex => Return (bool_decide (JSSet.size ex = 0))
       | None => Throw (TypeError "Cannot read properties of undefined (reading 'size')")
       end
  else Return false.

Definition broadcast (packet : Packet) (opts : BroadcastOptions) (w : World)
    : Outcome World :=
  match useFastPublish opts with
  | Throw e => Throw e
  | Return false => Return (baseBroadcast packet opts w)
  | Return true => Return (fastPublish packet opts w)
  end.

End WithApp.
End PatchedAdapter.

(** ** Objects of the broadcast operator, on a heap

    Operators share their [Set] and flag objects by reference, so the
    objects live in a store and operators hold locations. *)

Abbreviation loc := nat.
Definition AdapterRef := nat.

Inductive HeapObj :=
| HSet (elems : JSSet.t)
| HFlags (flags : BroadcastFlags)
| HOperator (adapter : AdapterRef) (rooms exceptRooms flags : loc)
| HRemoteSocket (id : SocketId) (handshake : value) (rooms : loc) (data : value)
    (operator : loc).

Abbreviation Heap := (list HeapObj).

(** Heap-threading computations; [None] is a field read at the wrong type,
    which typed callers never produce. *)
Definition HeapM (A : Type) : Type := Heap → option (A * Heap).

#[export] Instance HeapM_ret : MRet HeapM := λ A a h, Some (a, h).
#[export] Instance HeapM_bind : MBind HeapM := λ A B k m h,
  match m h with
  | Some (a, h') => k a h'
  | None => None
  end.

(** [new ...]: allocation at the next free location. *)
Definition new (o : HeapObj) : HeapM loc := λ h, Some (length h, h ++ [o]).

Definition getSet (l : loc) : HeapM JSSet.t := λ h,
  match h !! l with Some (HSet s) => Some (s, h) | _ => None end.

Definition getFlags (l : loc) : HeapM BroadcastFlags := λ h,
  match h !! l with Some (HFlags f) => Some (f, h) | _ => None end.

Definition getOperator (l : loc) : HeapM (AdapterRef * loc * loc * loc) := λ h,
  match h !! l with Some (HOperator ad r e f) => Some ((ad, r, e, f), h) | _ => None end.

(** [s.add(x)], in place. *)
Definition Set_add (l : loc) (x : string) : HeapM unit := λ h,
  match h !! l with
  | Some (HSet s) => Some (tt, <[l := HSet (JSSet.add x s)]> h)
  | _ => None
  end.

Definition override {A} (src dst : option A) : option A :=
  match src with Some v => Some v | None => dst end.

(** Properties of [f] after the properties present in [source] have been
    copied over it. *)
Definition assigned (f source : BroadcastFlags) : BroadcastFlags :=
  mkFlags
    (override (f_volatile source) (f_volatile f))
    (override (f_compress source) (f_compress f))
    (override (f_local source) (f_local f))
    (override (f_timeout source) (f_timeout f))
    (override (f_expectSingleResponse source) (f_expectSingleResponse f)).

(** [Object.assign(target, source)] on flag objects, in place. *)
Definition Object_assign (target : loc) (source : BroadcastFlags) : HeapM unit := λ h,
  match h !! target with
  | Some (HFlags f) => Some (tt, <[target := HFlags (assigned f source)]> h)
  | _ => None
  end.

Fixpoint forEach {A} (l : list A) (f : A → HeapM unit) : HeapM unit :=
  match l with
  | [] => mret tt
  | x :: l' => _ ← f x; forEach l' f
  end.

(** [Room | Room[]] *)
Inductive RoomArg :=
| One (room : Room)
| Many (rooms : list Room).

(** ** Acknowledgment aggregation: the closure state of one [emit] *)

Inductive Timer :=
| TimerPending (delay : Z)
| TimerCleared
| TimerFired.

(** Second argument handed to the ack callback. The [responses] array is
    handed over by reference; [PResponses] records what it holds at the time
    of the call, and later pushes show in the [responses] field of the
    state. [PValue] is [responses[0]]. *)
Inductive AckPayload :=
| PNull
| PValue (v : value)
| PResponses (snapshot : list value).

Record Invocation := mkInvocation {
  inv_err : option JSError;
  inv_payload : AckPayload
}.

Record AckState := mkAck {
  ack_flags : BroadcastFlags;
  timer : Timer;
  timedOut : bool;
  responses : list value;
  expectedServerCount : Z;
  actualServerCount : Z;
  expectedClientCount : Z;
  invocations : list Invocation
}.

Inductive AckEvent :=
| ServerResponded (clientCount : Z)
| ClientResponded (clientResponse : value)
| ServerCountResolved (serverCount : Z)
| DeadlineExpired.

(** Truthiness of an optional boolean property. *)
Definition truthy (o : option bool) : bool :=
  match o with Some true => true | _ => false end.

Definition clearTimeout (t : Timer) : Timer :=
  match t with TimerPending _ => TimerCleared | _ => t end.

Definition complete (s : AckState) : bool :=
  negb (timedOut s)
  && (expectedServerCount s =? actualServerCount s)%Z
  && (Z.of_nat (length (responses s)) =? expectedClientCount s)%Z.

Definition checkCompleteness (s : AckState) : AckState :=
  if complete s
  then mkAck (ack_flags s) (clearTimeout (timer s)) (timedOut s) (responses s)
         (expectedServerCount s) (actualServerCount s) (expectedClientCount s)
         (invocations s ++
            [mkInvocation None
               (if truthy (f_expectSingleResponse (ack_flags s))
                then PValue (default VUndefined (responses s !! 0))
                else PResponses (responses s))])
  else s.

(** The [setTimeout] callback; the host runs it only for a pending timer. *)
Definition onDeadline (s : AckState) : AckState :=
  match timer s with
  | TimerPending _ =>
      mkAck (ack_flags s) TimerFired true (responses s)
        (expectedServerCount s) (actualServerCount s) (expectedClientCount s)
        (invocations s ++
           [mkInvocation (Some (Error "operation has timed out"))
              (if truthy (f_expectSingleResponse (ack_flags s))
               then PNull
               else PResponses (responses s))])
  | _ => s
  end.

Definition onServerResponded (clientCount : Z) (s : AckState) : AckState :=
  checkCompleteness
    (mkAck (ack_flags s) (timer s) (timedOut s) (responses s)
       (expectedServerCount s) (actualServerCount s + 1)%Z
       (expectedClientCount s + clientCount)%Z (invocations s)).

Definition onClientResponded (clientResponse : value) (s : AckState) : AckState :=
  checkCompleteness
    (mkAck (ack_flags s) (timer s) (timedOut s) (responses s ++ [clientResponse])
       (expectedServerCount s) (actualServerCount s) (expectedClientCount s)
       (invocations s)).

Definition onServerCount (serverCount : Z) (s : AckState) : AckState :=
  checkCompleteness
    (mkAck (ack_flags s) (timer s) (timedOut s) (responses s)
       serverCount (actualServerCount s) (expectedClientCount s) (invocations s)).

Definition step (s : AckState) (e : AckEvent) : AckState :=
  match e with
  | ServerResponded n => onServerResponded n s
  | ClientResponded r => onClientResponded r s
  | ServerCountResolved n => onServerCount n s
  | DeadlineExpired => onDeadline s
  end.

Definition run (s : AckState) (evs : list AckEvent) : AckState := foldl step s evs.

(** Calls an [emit] makes on its collaborators. *)
Inductive OperatorCall :=
| CallSetTimeout (delay : option Z)
| CallBroadcast (packet : Packet) (opts : BroadcastOptions)
| CallBroadcastWithAck (packet : Packet) (opts : BroadcastOptions)
| CallServerCount.

Record EmitResult := mkEmit {
  returned : bool;
  calls : list OperatorCall;
  ack : option nat;
  pending : option AckState
}.

Definition dquote : string := String (Ascii.ascii_of_nat 34) EmptyString.

(** ** [class BroadcastOperator] *)

Module BroadcastOperator.

Definition to (room : RoomArg) (this : loc) : HeapM loc :=
  '(ad, r, e, f) ← getOperator this;
  s ← getSet r;
  rooms ← new (HSet s);
  _ ← match room with
      | Many rs => forEach rs (Set_add rooms)
      | One r => Set_add rooms r
      end;
  new (HOperator ad rooms e f).

Definition in_ (room : RoomArg) (this : loc) : HeapM loc := to room this.

Definition except (room : RoomArg) (this : loc) : HeapM loc :=
  '(ad, r, e, f) ← getOperator this;
  s ← getSet e;
  exceptRooms ← new (HSet s);
  _ ← match room with
      | Many rs => forEach rs (Set_add exceptRooms)
      | One r => Set_add exceptRooms r
      end;
  new (HOperator ad r exceptRooms f).

(** [Object.assign({}, this.flags, extra)] followed by the constructor
    call shared by the four flag setters. *)
Definition withFlags (extra : BroadcastFlags) (this : loc) : HeapM loc :=
  '(ad, r, e, f) ← getOperator this;
  fl ← getFlags f;
  flags ← new (HFlags noFlags);
  _ ← Object_assign flags fl;
  _ ← Object_assign flags extra;
  new (HOperator ad r e flags).

Definition compress (compress : bool) (this : loc) : HeapM loc :=
  withFlags (mkFlags None (Some compress) None None None) this.

Definition volatile (this : loc) : HeapM loc :=
  withFlags (mkFlags (Some true) None None None None) this.

Definition local (this : loc) : HeapM loc :=
  withFlags (mkFlags None None (Some true) None None) this.

Definition timeout (timeout : Z) (this : loc) : HeapM loc :=
  withFlags (mkFlags None None None (Some timeout) None) this.

(** The object literal [{ rooms: this.rooms, except: this.exceptRooms,
    flags: this.flags }], read through the references. *)
Definition selector (this : loc) : HeapM BroadcastOptions :=
  '(ad, r, e, f) ← getOperator this;
  rs ← getSet r;
  ex ← getSet e;
  fl ← getFlags f;
  mret (mkOpts rs (Some ex) (Some fl)).

Section Emit.
(** [RESERVED_EVENTS], imported from [./socket]. *)
Variable RESERVED_EVENTS : JSSet.t.
(** Delay the host timer uses when none is given. *)
Variable systemDefaultTimeout : Z.

(** Modelled from the spec: the host's [setTimeout]; when the delay is
    unset, the system's default timeout applies. *)
Definition setTimeout (delay : option Z) : Timer :=
  TimerPending (default systemDefaultTimeout delay).

Definition emit (ev : string) (args : list value) (this : loc)
    : HeapM (Outcome EmitResult) :=
  if JSSet.has ev RESERVED_EVENTS
  then mret (Throw (Error (dquote +:+ ev +:+ dquote +:+ " is a reserved event name")))
  else
    let data := VStr ev :: args in
    opts ← selector this;
    match last data with
    | Some (VFun ack) =>
        let packet := mkPacket EVENT None (removelast data) in
        let flags := default noFlags (o_flags opts) in
        let timer := setTimeout (f_timeout flags) in
        mret (Return (mkEmit true
          [CallSetTimeout (f_timeout flags);
           CallBroadcastWithAck packet opts;
           CallServerCount]
          (Some ack)
          (Some (mkAck flags timer false [] (-1) 0 0 []))))
    | _ =>
        mret (Return (mkEmit true
          [CallBroadcast (mkPacket EVENT None data) opts] None None))
    end.
End Emit.

End BroadcastOperator.

(** ** [class RemoteSocket] *)

Record SocketDetails := mkDetails {
  d_id : SocketId;
  d_handshake : value;
  d_rooms : list Room;
  d_data : value
}.

Module RemoteSocket.

Definition constructor (adapter : AdapterRef) (details : SocketDetails) : HeapM loc :=
  rooms ← new (HSet (JSSet.of_list (d_rooms details)));
  targets ← new (HSet (JSSet.of_list [d_id details]));
  exceptRooms ← new (HSet JSSet.empty);
  flags ← new (HFlags (mkFlags None None None None (Some true)));
  operator ← new (HOperator adapter targets exceptRooms flags);
  new (HRemoteSocket (d_id details) (d_handshake details) rooms (d_data details) operator).

Definition getOperatorOf (this : loc) : HeapM loc := λ h,
  match h !! this with
  | Some (HRemoteSocket _ _ _ _ op) => Some (op, h)
  | _ => None
  end.

Definition timeout (timeout : Z) (this : loc) : HeapM loc :=
  op ← getOperatorOf this;
  BroadcastOperator.timeout timeout op.

Definition emit (RESERVED_EVENTS : JSSet.t) (systemDefaultTimeout : Z)
    (ev : string) (args : list value) (this : loc) : HeapM (Outcome EmitResult) :=
  op ← getOperatorOf this;
  BroadcastOperator.emit RESERVED_EVENTS systemDefaultTimeout ev args op.

End RemoteSocket.

(** ** Readings of an effect trace *)

Definition isPublish (e : Effect) : bool :=
  match e with Publish _ _ _ => true | _ => false end.

(** Number of [app.publish] calls in a trace. *)
Fixpoint publishCalls (es : list Effect) : nat :=
  match es with
  | [] => 0
  | e :: es' => (if isPublish e then 1 else 0) + publishCalls es'
  end.

(** Modelled from the spec: the transport's subscribed-topic set, behind the
    opaque subscribe/unsubscribe primitive of the connection's transport.
    Subscribing to an already-subscribed topic is a safe no-op. *)
Definition subscriptions (ws : WebSocket) (es : list Effect) : JSSet.t :=
  foldl (λ acc e,
           match e with
           | Subscribe ws' topic => if decide (ws' = ws) then JSSet.add topic acc else acc
           | Unsubscribe ws' topic => if decide (ws' = ws) then JSSet.delete topic acc else acc
           | _ => acc
           end) JSSet.empty es.

(** The frame as handed to [app.publish]: text frames get the leading "4". *)
Definition published (topic : string) (encodedPacket : Frame) : Effect :=
  match encodedPacket with
  | TextFrame s => Publish topic (TextFrame ("4" +:+ s)) false
  | BinaryFrame _ => Publish topic encodedPacket true
  end.

(** ** Readings of the operator heap and of an event sequence *)

(** [this] is an operator of heap [h] bound to adapter [ad] whose three
    references hold the sets [rs], [ex] and the flags [fl]. *)
Definition operator_at (h : Heap) (this : loc) (ad : AdapterRef)
    (rs ex : JSSet.t) (fl : BroadcastFlags) : Prop :=
  ∃ r e f,
    h !! this = Some (HOperator ad r e f)
    ∧ h !! r = Some (HSet rs)
    ∧ h !! e = Some (HSet ex)
    ∧ h !! f = Some (HFlags fl).

(** The chaining calls of an operator. *)
Inductive Chain :=
| ChainTo (room : RoomArg)
| ChainIn (room : RoomArg)
| ChainExcept (room : RoomArg)
| ChainCompress (compress : bool)
| ChainVolatile
| ChainLocal
| ChainTimeout (timeout : Z).

Definition chain (c : Chain) (this : loc) : HeapM loc :=
  match c with
  | ChainTo room => BroadcastOperator.to room this
  | ChainIn room => BroadcastOperator.in_ room this
  | ChainExcept room => BroadcastOperator.except room this
  | ChainCompress b => BroadcastOperator.compress b this
  | ChainVolatile => BroadcastOperator.volatile this
  | ChainLocal => BroadcastOperator.local this
  | ChainTimeout t => BroadcastOperator.timeout t this
  end.

Definition addRooms (room : RoomArg) (s : JSSet.t) : JSSet.t :=
  match room with
  | One r => JSSet.add r s
  | Many rs => foldl (λ s r, JSSet.add r s) s rs
  end.

(** Contents expected of the operator returned by a chaining call. *)
Definition chainedRooms (c : Chain) (rs : JSSet.t) : JSSet.t :=
  match c with
  | ChainTo room | ChainIn room => addRooms room rs
  | _ => rs
  end.

Definition chainedExcept (c : Chain) (ex : JSSet.t) : JSSet.t :=
  match c with
  | ChainExcept room => addRooms room ex
  | _ => ex
  end.

Definition chainedFlags (c : Chain) (fl : BroadcastFlags) : BroadcastFlags :=
  match c with
  | ChainCompress b =>
      mkFlags (f_volatile fl) (Some b) (f_local fl) (f_timeout fl) (f_expectSingleResponse fl)
  | ChainVolatile =>
      mkFlags (Some true) (f_compress fl) (f_local fl) (f_timeout fl) (f_expectSingleResponse fl)
  | ChainLocal =>
      mkFlags (f_volatile fl) (f_compress fl) (Some true) (f_timeout fl) (f_expectSingleResponse fl)
  | ChainTimeout t =>
      mkFlags (f_volatile fl) (f_compress fl) (f_local fl) (Some t) (f_expectSingleResponse fl)
  | _ => fl
  end.

(** Closure state right after [emit] has registered its callbacks. *)
Definition initialAck (systemDefaultTimeout : Z) (fl : BroadcastFlags) : AckState :=
  mkAck fl (BroadcastOperator.setTimeout systemDefaultTimeout (f_timeout fl))
    false [] (-1) 0 0 [].

(** The assignments of a callback, before its [checkCompleteness()] call. *)
Definition update (s : AckState) (e : AckEvent) : AckState :=
  match e with
  | ServerResponded n =>
      mkAck (ack_flags s) (timer s) (timedOut s) (responses s)
        (expectedServerCount s) (actualServerCount s + 1)%Z
        (expectedClientCount s + n)%Z (invocations s)
  | ClientResponded r =>
      mkAck (ack_flags s) (timer s) (timedOut s) (responses s ++ [r])
        (expectedServerCount s) (actualServerCount s) (expectedClientCount s)
        (invocations s)
  | ServerCountResolved n =>
      mkAck (ack_flags s) (timer s) (timedOut s) (responses s)
        n (actualServerCount s) (expectedClientCount s) (invocations s)
  | DeadlineExpired => s
  end.

Definition serverReports (evs : list AckEvent) : list Z :=
  omap (λ e, match e with ServerResponded n => Some n | _ => None end) evs.

Definition clientResponses (evs : list AckEvent) : list value :=
  omap (λ e, match e with ClientResponded r => Some r | _ => None end) evs.

Definition serverCounts (evs : list AckEvent) : list Z :=
  omap (λ e, match e with ServerCountResolved n => Some n | _ => None end) evs.

Definition sumZ (l : list Z) : Z := foldr Z.add 0%Z l.

(** What happens after an ack-seeking emit when every cooperating process
    reports its matching-client count, every matching client acknowledges,
    and the server count resolves to the number of processes. *)
Definition reports (counts : list Z) (rs : list value) : list AckEvent :=
  map ServerResponded counts ++ map ClientResponded rs
    ++ [ServerCountResolved (Z.of_nat (length counts))].

(** The two possible calls of the ack callback. *)
Definition resolved (fl : BroadcastFlags) (rs : list value) : Invocation :=
  mkInvocation None
    (if truthy (f_expectSingleResponse fl)
     then PValue (default VUndefined (rs !! 0))
     else PResponses rs).

Definition timedOutWith (fl : BroadcastFlags) (rs : list value) : Invocation :=
  mkInvocation (Some (Error "operation has timed out"))
    (if truthy (f_expectSingleResponse fl) then PNull else PResponses rs).

(** ** A sample deployment, used to instantiate the statements below *)

#[export] Instance value_eq_dec : EqDecision value.
Proof. solve_decision. Defined.

#[export] Instance AckEvent_eq_dec : EqDecision AckEvent.
Proof. solve_decision. Defined.

Module Sample.

Definition reserved : JSSet.t :=
  ["connect"; "connect_error"; "disconnect"; "disconnecting";
   "newListener"; "removeListener"].

Definition codec (p : Packet) : list Frame :=
  [TextFrame "2[ev]"; BinaryFrame []].

Definition alice : Socket := mkSocket "alice" "/chat" "sess-a" "websocket" 1.
Definition bob : Socket := mkSocket "bob" "/chat" "sess-b" "polling" 2.

(** [alice] has joined [lobby]; [bob] is connected but has no room entry
    yet; [carol] has a room entry but no socket object any more. *)
Definition chat : AdapterState :=
  mkAdapter "/chat"
    (<["alice" := alice]> (<["bob" := bob]> ∅))
    (<["alice" := ["alice"; "lobby"]]> (<["carol" := ["carol"]]> ∅))
    (<["alice" := ["alice"]]> (<["lobby" := ["alice"]]> (<["carol" := ["carol"]]> ∅))).

Definition world : World :=
  mkWorld chat
    [Subscribe 1 "/chat";
     Subscribe 1 ("/chat" +:+ SEPARATOR +:+ "alice");
     Subscribe 1 ("/chat" +:+ SEPARATOR +:+ "lobby")].

Definition packet : Packet := mkPacket EVENT None [VStr "ev"].

(** A root operator of adapter [7], with rooms [{x}], no exclusion and no
    flag: objects 0-2 are its sets and flags, object 3 the operator. *)
Definition heap : Heap :=
  [HSet ["x"]; HSet []; HFlags noFlags; HOperator 7 0 1 2].

Definition details : SocketDetails :=
  mkDetails "alice" VNull ["alice"; "lobby"] VNull.

(** Two processes report 3 and 2 matching clients, the five clients
    answer, and the server count resolves to 2, interleaved. *)
Definition round : list AckEvent :=
  [ServerResponded 3; ClientResponded (VStr "a"); ClientResponded (VStr "b");
   ServerCountResolved 2; ClientResponded (VStr "c"); ServerResponded 2;
   ClientResponded (VStr "d"); ClientResponded (VStr "e")].

(** The same round cut before the fifth answer. *)
Definition late_round : list AckEvent :=
  [ServerResponded 3; ClientResponded (VStr "a"); ClientResponded (VStr "b");
   ServerCountResolved 2; ClientResponded (VStr "c"); ServerResponded 2;
   ClientResponded (VStr "d")].

(** [new RemoteSocket(7, details).timeout(1000).to("lobby")] on an empty
    heap. *)
Definition scoped : HeapM loc :=
  rsock ← RemoteSocket.constructor 7 details;
  op ← RemoteSocket.timeout 1000 rsock;
  BroadcastOperator.to (One "lobby") op.

End Sample.

(** ** The rest of the operator classes *)

(** What the promise is settled with: [null], a value, or the closure's
    [responses] array itself. The array is held by reference, so what it
    contains is read from the state of the emit at the time of reading. *)
Inductive Held :=
| HeldNull
| HeldValue (v : value)
| HeldArray.

Definition held (p : AckPayload) : Held :=
  match p with
  | PNull => HeldNull
  | PValue v => HeldValue v
  | PResponses _ => HeldArray
  end.

(** What a held object shows when the emit is in state [s]. *)
Definition contents (hd : Held) (s : AckState) : AckPayload :=
  match hd with
  | HeldNull => PNull
  | HeldValue v => PValue v
  | HeldArray => PResponses (responses s)
  end.

(** A promise of the host: pending, fulfilled with the callback's second
    argument, or rejected with an error and what was stored in its
    [responses] property (nothing when the error was thrown by [emit]). *)
Inductive Promise :=
| PromisePending
| PromiseFulfilled (responses : Held)
| PromiseRejected (err : JSError) (responses : option Held).

(** The callback [emitWithAck] appends to the arguments:
    [(err, responses) => err ? (err.responses = responses, reject(err))
                             : resolve(responses)];
    resolving or rejecting a settled promise does nothing. *)
Definition settle (p : Promise) (i : Invocation) : Promise :=
  match p with
  | PromisePending =>
      match inv_err i with
      | Some err => PromiseRejected err (Some (held (inv_payload i)))
      | None => PromiseFulfilled (held (inv_payload i))
      end
  | _ => p
  end.

Record AckPromise := mkAckPromise {
  promise : Promise;
  emitted : option EmitResult
}.

(** [emitWithAck]: the executor pushes the callback (closure [k]) and calls
    [this.emit]; an exception thrown by the executor rejects the promise. *)
Definition emitWithAck (RESERVED_EVENTS : JSSet.t) (systemDefaultTimeout : Z)
    (ev : string) (args : list value) (k : nat) (this : loc) : HeapM AckPromise :=
  out ← BroadcastOperator.emit RESERVED_EVENTS systemDefaultTimeout ev (args ++ [VFun k]) this;
  mret match out with
       | Throw e => mkAckPromise (PromiseRejected e None) None
       | Return r => mkAckPromise PromisePending (Some r)
       end.

(** State of the promise once the ack callback has been called as recorded. *)
Definition promiseAfter (p : AckPromise) (calls : list Invocation) : Promise :=
  foldl settle (promise p) calls.

(** Administrative commands sent to the adapter. *)
Inductive AdminCall :=
| CallFetchSockets (opts : BroadcastOptions)
| CallAddSockets (opts : BroadcastOptions) (rooms : list Room)
| CallDelSockets (opts : BroadcastOptions) (rooms : list Room)
| CallDisconnectSockets (opts : BroadcastOptions) (close : bool).

(** [Array.isArray(room) ? room : [room]] *)
Definition roomList (room : RoomArg) : list Room :=
  match room with
  | Many rs => rs
  | One r => [r]
  end.

Definition socketsJoin (room : RoomArg) (this : loc) : HeapM AdminCall :=
  opts ← BroadcastOperator.selector this;
  mret (CallAddSockets opts (roomList room)).

Definition socketsLeave (room : RoomArg) (this : loc) : HeapM AdminCall :=
  opts ← BroadcastOperator.selector this;
  mret (CallDelSockets opts (roomList room)).

(** [disconnectSockets(close = false)] *)
Definition disconnectSockets (close : option bool) (this : loc) : HeapM AdminCall :=
  opts ← BroadcastOperator.selector this;
  mret (CallDisconnectSockets opts (default false close)).

(** What the adapter's [fetchSockets] resolves to: a live [Socket] of this
    process, or the details of a socket of another process. *)
Inductive Fetched :=
| FetchedLocal (socket : Socket)
| FetchedRemote (details : SocketDetails).

Inductive Handle :=
| LocalHandle (socket : Socket)
| RemoteHandle (remote : loc).

Fixpoint mapM {A B} (f : A → HeapM B) (l : list A) : HeapM (list B) :=
  match l with
  | [] => mret []
  | x :: l' => y ← f x; ys ← mapM f l'; mret (y :: ys)
  end.

(** The request of [fetchSockets] and the [then] callback mapping its
    result. *)
Definition fetchSockets (this : loc) : HeapM AdminCall :=
  opts ← BroadcastOperator.selector this;
  mret (CallFetchSockets opts).

Definition fetchSockets_then (this : loc) (sockets : list Fetched) : HeapM (list Handle) :=
  '(ad, r, e, f) ← getOperator this;
  mapM (λ socket,
          match socket with
          | FetchedLocal s => mret (LocalHandle s)
          | FetchedRemote d => remote ← RemoteSocket.constructor ad d; mret (RemoteHandle remote)
          end) sockets.

(** [RemoteSocket.prototype.join / leave / disconnect] *)
Definition RemoteSocket_join (room : RoomArg) (this : loc) : HeapM AdminCall :=
  op ← RemoteSocket.getOperatorOf this;
  socketsJoin room op.

Definition RemoteSocket_leave (room : Room) (this : loc) : HeapM AdminCall :=
  op ← RemoteSocket.getOperatorOf this;
  socketsLeave (One room) op.

Definition RemoteSocket_disconnect (close : option bool) (this : loc)
    : HeapM (AdminCall * loc) :=
  op ← RemoteSocket.getOperatorOf this;
  call ← disconnectSockets (Some (default false close)) op;
  mret (call, this).

(** ** The proxy classes

    Each proxy extends [BroadcastOperator]: its own inherited fields are set
    by [super(wrapped['adapter'], wrapped['rooms'], wrapped['exceptRooms'],
    wrapped['flags'])] and live in the operator object [self]; only [emit] is
    overridden. *)

Inductive ConsoleLine :=
| ConsoleLog (message : string) (args : list value)
| ConsoleWarn (message : string).

Inductive Proxy :=
| Plain (self : loc)
| Logging (self : loc) (wrapped : Proxy)
| Compression (self : loc) (wrapped : Proxy)
| AccessControl (self : loc) (wrapped : Proxy) (userRole : string).

Definition self_of (p : Proxy) : loc :=
  match p with
  | Plain self | Logging self _ | Compression self _ | AccessControl self _ _ => self
  end.

(** The [super(...)] call of the three proxy constructors. *)
Definition super (wrapped : Proxy) : HeapM loc :=
  '(ad, r, e, f) ← getOperator (self_of wrapped);
  new (HOperator ad r e f).

Definition LoggingBroadcastOperator (wrapped : Proxy) : HeapM Proxy :=
  self ← super wrapped; mret (Logging self wrapped).

Definition CompressionBroadcastOperator (wrapped : Proxy) : HeapM Proxy :=
  self ← super wrapped; mret (Compression self wrapped).

Definition AccessControlBroadcastOperator (wrapped : Proxy) (userRole : string)
    : HeapM Proxy :=
  self ← super wrapped; mret (AccessControl self wrapped userRole).

Definition hasPermission (userRole : string) : bool := String.eqb userRole "admin".

(** [emit] with dynamic dispatch; the console lines are in program order. *)
Fixpoint emitVia (RESERVED_EVENTS : JSSet.t) (systemDefaultTimeout : Z)
    (p : Proxy) (ev : string) (args : list value)
    : HeapM (list ConsoleLine * Outcome EmitResult) :=
  match p with
  | Plain self =>
      out ← BroadcastOperator.emit RESERVED_EVENTS systemDefaultTimeout ev args self;
      mret ([], out)
  | Logging _ wrapped =>
      '(lines, out) ← emitVia RESERVED_EVENTS systemDefaultTimeout wrapped ev args;
      mret (ConsoleLog ("Event " +:+ dquote +:+ ev +:+ dquote
                          +:+ " is being emitted with args:") args :: lines, out)
  | Compression _ wrapped =>
      _ ← BroadcastOperator.compress true (self_of wrapped);
      emitVia RESERVED_EVENTS systemDefaultTimeout wrapped ev args
  | AccessControl _ wrapped userRole =>
      if hasPermission userRole
      then emitVia RESERVED_EVENTS systemDefaultTimeout wrapped ev args
      else mret ([ConsoleWarn ("User with role " +:+ dquote +:+ userRole +:+ dquote
                                 +:+ " does not have permission to emit event "
                                 +:+ dquote +:+ ev +:+ dquote)],
                 Return (mkEmit false [] None None))
  end.

(** A chaining method called on a proxy is the inherited one: it reads the
    proxy's own fields and returns a plain operator. *)
Definition chainVia (c : Chain) (p : Proxy) : HeapM Proxy :=
  b ← chain c (self_of p); mret (Plain b).

(** Every operator object a proxy stack refers to is an operator of the
    heap. *)
Fixpoint proxy_ok (h : Heap) (p : Proxy) : Prop :=
  (∃ ad rs ex fl, operator_at h (self_of p) ad rs ex fl)
  ∧ match p with
    | Plain _ => True
    | Logging _ w | Compression _ w | AccessControl _ w _ => proxy_ok h w
    end.

(** The operator a stack of proxies finally emits through. *)
Fixpoint innermost (p : Proxy) : loc :=
  match p with
  | Plain self => self
  | Logging _ w | Compression _ w | AccessControl _ w _ => innermost w
  end.

(** ** The log entry of [LoggingService.logConnection] *)

Definition newline : string := String (Ascii.ascii_of_nat 10) EmptyString.

(** The template literal of [logConnection]; [timestamp] is
    [new Date().toISOString()]. *)
Definition logEntry (namespace socketId timestamp : string) : string :=
  "Namespace: " +:+ namespace +:+ ", Socket ID: " +:+ socketId
    +:+ ", Timestamp: " +:+ timestamp +:+ newline.

Fixpoint lineBreaks (s : string) : nat :=
  match s with
  | EmptyString => 0
  | String c s' => (if Ascii.eqb c (Ascii.ascii_of_nat 10) then 1 else 0) + lineBreaks s'
  end.

(** ** Sequences of membership changes of one connection *)

Inductive MembershipOp :=
| OpAddAll (rs : JSSet.t)
| OpDel (room : Room).

Definition applyOp (useWsLibrary : bool) (id : SocketId) (w : World)
    (op : MembershipOp) : World :=
  match op with
  | OpAddAll rs => PatchedAdapter.addAll useWsLibrary id rs w
  | OpDel room => PatchedAdapter.del useWsLibrary id room w
  end.

(** The transport [ws] is subscribed to exactly the namespace topic and the
    topics of the rooms recorded for [id], and to nothing while [id] has no
    record. *)
Definition subscribedExactly (w : World) (id : SocketId) (ws : WebSocket) : Prop :=
  ∀ topic,
    topic ∈ subscriptions ws (effects w)
    ↔ ∃ s, sids (adapter w) !! id = Some s
           ∧ (topic = nsp_name (adapter w)
              ∨ ∃ room, room ∈ s ∧ topic = nsp_name (adapter w) +:+ SEPARATOR +:+ room).

(** ** Readings used for the operator classes *)

(** A fluent chain [a.c1.c2...]. *)
Fixpoint chains (cs : list Chain) (this : loc) : HeapM loc :=
  match cs with
  | [] => mret this
  | c :: cs' => b ← chain c this; chains cs' b
  end.

(** What [emit] computes once the selector has been read. *)
Definition emitOn (RESERVED_EVENTS : JSSet.t) (systemDefaultTimeout : Z)
    (ev : string) (args : list value) (opts : BroadcastOptions) : Outcome EmitResult :=
  if JSSet.has ev RESERVED_EVENTS
  then Throw (Error (dquote +:+ ev +:+ dquote +:+ " is a reserved event name"))
  else
    match last (VStr ev :: args) with
    | Some (VFun ack) =>
        let flags := default noFlags (o_flags opts) in
        Return (mkEmit true
          [CallSetTimeout (f_timeout flags);
           CallBroadcastWithAck (mkPacket EVENT None (removelast (VStr ev :: args))) opts;
           CallServerCount]
          (Some ack)
          (Some (mkAck flags
                   (BroadcastOperator.setTimeout systemDefaultTimeout (f_timeout flags))
                   false [] (-1) 0 0 [])))
    | _ => Return (mkEmit true [CallBroadcast (mkPacket EVENT None (VStr ev :: args)) opts]
                     None None)
    end.

(** What a stack of proxies makes of the outcome of its innermost [emit]. *)
Fixpoint wrapOutcome (p : Proxy) (ev : string) (args : list value)
    (inner : Outcome EmitResult) : list ConsoleLine * Outcome EmitResult :=
  match p with
  | Plain _ => ([], inner)
  | Logging _ w =>
      (ConsoleLog ("Event " +:+ dquote +:+ ev +:+ dquote
                     +:+ " is being emitted with args:") args
         :: (wrapOutcome w ev args inner).1,
       (wrapOutcome w ev args inner).2)
  | Compression _ w => wrapOutcome w ev args inner
  | AccessControl _ w userRole =>
      if hasPermission userRole
      then wrapOutcome w ev args inner
      else ([ConsoleWarn ("User with role " +:+ dquote +:+ userRole +:+ dquote
                            +:+ " does not have permission to emit event "
                            +:+ dquote +:+ ev +:+ dquote)],
            Return (mkEmit false [] None None))
  end.

(** [handle] is what [fetchSockets] hands out for [item] on heap [h]. *)
Definition handle_for (h : Heap) (ad : AdapterRef) (item : Fetched) (handle : Handle)
    : Prop :=
  match item, handle with
  | FetchedLocal s, LocalHandle s' => s' = s
  | FetchedRemote d, RemoteHandle l =>
      ∃ rooms op,
        h !! l = Some (HRemoteSocket (d_id d) (d_handshake d) rooms (d_data d) op)
        ∧ h !! rooms = Some (HSet (JSSet.of_list (d_rooms d)))
        ∧ operator_at h op ad [d_id d] [] (mkFlags None None None None (Some true))
  | _, _ => False
  end.

(** * Properties *)

(** ** Sets and traces *)

Lemma JSSet_add_elem (x : string) (s : JSSet.t) : x ∈ JSSet.add x s.
Proof.
  unfold JSSet.add, JSSet.has. case_bool_decide; [done|].
  apply elem_of_app. right. by apply list_elem_of_singleton.
Qed.

Lemma JSSet_add_mono (x y : string) (s : JSSet.t) : y ∈ s → y ∈ JSSet.add x s.
Proof.
  intros Hy. unfold JSSet.add. destruct (JSSet.has x s); [done|].
  apply elem_of_app. by left.
Qed.

Lemma JSSet_delete_not_elem (x : string) (s : JSSet.t) : x ∉ JSSet.delete x s.
Proof. unfold JSSet.delete. rewrite list_elem_of_filter. tauto. Qed.

Lemma JSSet_delete_absent (x : string) (s : JSSet.t) : x ∉ s → JSSet.delete x s = s.
Proof.
  unfold JSSet.delete. induction s as [|y s IH]; intros Hx; [done|].
  apply not_elem_of_cons in Hx as [Hne Hx].
  rewrite filter_cons_True by congruence. f_equal. by apply IH.
Qed.

Lemma perform_all {A} (f : A → Effect) (l : list A) (w : World) :
  foldl (λ w x, perform (f x) w) w l = mkWorld (adapter w) (effects w ++ map f l).
Proof.
  revert w. induction l as [|x l IH]; intros w; simpl.
  - rewrite app_nil_r. by destruct w.
  - rewrite IH. simpl. by rewrite <- app_assoc.
Qed.

Lemma publishCalls_app (es1 es2 : list Effect) :
  publishCalls (es1 ++ es2) = publishCalls es1 + publishCalls es2.
Proof. induction es1 as [|e es1 IH]; simpl; [done|]. rewrite IH. lia. Qed.

Lemma publishCalls_published (topic : string) (frames : list Frame) :
  publishCalls (map (published topic) frames) = length frames.
Proof.
  induction frames as [|fr frames IH]; simpl; [done|].
  rewrite IH. by destruct fr.
Qed.

Lemma subscriptions_snoc (ws : WebSocket) (es : list Effect) (e : Effect) :
  subscriptions ws (es ++ [e]) =
  match e with
  | Subscribe ws' topic =>
      if decide (ws' = ws) then JSSet.add topic (subscriptions ws es) else subscriptions ws es
  | Unsubscribe ws' topic =>
      if decide (ws' = ws) then JSSet.delete topic (subscriptions ws es) else subscriptions ws es
  | _ => subscriptions ws es
  end.
Proof. unfold subscriptions. by rewrite foldl_app. Qed.

Lemma topic_not_namespace (ns room : string) : ns +:+ SEPARATOR +:+ room ≠ ns.
Proof.
  induction ns as [|c ns IH]; simpl in *; [discriminate|].
  intros H. injection H as H. by apply IH.
Qed.

(** ** The patched adapter *)

Lemma handleUWebSockets_effects ns socket isNew rs w :
  handleUWebSockets ns socket isNew rs w =
  mkWorld (adapter w)
    (effects w ++ (if isNew then [Subscribe (transport_socket socket) ns] else [])
       ++ map (λ room, Subscribe (transport_socket socket) (ns +:+ SEPARATOR +:+ room)) rs).
Proof.
  unfold handleUWebSockets.
  rewrite (perform_all (λ room, Subscribe (transport_socket socket) (ns +:+ SEPARATOR +:+ room))).
  destruct isNew; simpl; [by rewrite <- app_assoc | done].
Qed.

Lemma handleWsLibrary_effects ns socket isNew rs w :
  handleWsLibrary ns socket isNew rs w = handleUWebSockets ns socket isNew rs w.
Proof. reflexivity. Qed.

Lemma base_join_frame id a room :
  nsp_name (BaseAdapter.join id a room) = nsp_name a ∧
  nsp_sockets (BaseAdapter.join id a room) = nsp_sockets a.
Proof. done. Qed.

Lemma base_addAll_frame id rs a :
  nsp_name (BaseAdapter.addAll id rs a) = nsp_name a ∧
  nsp_sockets (BaseAdapter.addAll id rs a) = nsp_sockets a.
Proof.
  unfold BaseAdapter.addAll.
  set (a0 := match sids a !! id with Some _ => a | None => _ end).
  assert (H0 : nsp_name a0 = nsp_name a ∧ nsp_sockets a0 = nsp_sockets a)
    by (subst a0; by destruct (sids a !! id)).
  clearbody a0. revert a0 H0.
  induction rs as [|r rs IH]; intros a0 H0; simpl; [done|].
  apply IH. by destruct (base_join_frame id a0 r) as [-> ->].
Qed.

Lemma base_join_keeps_member id a room r :
  id ∈ BaseAdapter.members a room → id ∈ BaseAdapter.members (BaseAdapter.join id a r) room.
Proof.
  intros H. unfold BaseAdapter.members, BaseAdapter.join. simpl.
  destruct (decide (r = room)) as [->|Hne].
  - rewrite lookup_insert_eq. simpl. by apply JSSet_add_mono.
  - by rewrite lookup_insert_ne.
Qed.

Lemma base_join_keeps_record id a room r s :
  sids a !! id = Some s → room ∈ s →
  ∃ s', sids (BaseAdapter.join id a r) !! id = Some s' ∧ room ∈ s'.
Proof.
  intros Hs Hr. exists (JSSet.add r s). split.
  - unfold BaseAdapter.join. simpl. rewrite lookup_alter_eq, Hs. done.
  - by apply JSSet_add_mono.
Qed.

Lemma base_joins_member id rs : ∀ a room,
  is_Some (sids a !! id) → room ∈ rs →
  id ∈ BaseAdapter.members (foldl (BaseAdapter.join id) a rs) room ∧
  ∃ s, sids (foldl (BaseAdapter.join id) a rs) !! id = Some s ∧ room ∈ s.
Proof.
  assert (Hkeep : ∀ rs a room,
            id ∈ BaseAdapter.members a room →
            (∃ s, sids a !! id = Some s ∧ room ∈ s) →
            id ∈ BaseAdapter.members (foldl (BaseAdapter.join id) a rs) room ∧
            ∃ s, sids (foldl (BaseAdapter.join id) a rs) !! id = Some s ∧ room ∈ s).
  { clear rs. induction rs as [|r rs IH]; intros a room Hm (s & Hs & Hr); simpl.
    - eauto.
    - apply IH; [by apply base_join_keeps_member | by eapply base_join_keeps_record]. }
  induction rs as [|r rs IH]; intros a room [s Hs] Hin.
  - by apply elem_of_nil in Hin.
  - simpl. apply elem_of_cons in Hin as [->|Hin].
    + apply Hkeep.
      * unfold BaseAdapter.members, BaseAdapter.join. simpl.
        rewrite lookup_insert_eq. simpl. apply JSSet_add_elem.
      * exists (JSSet.add r s). split; [|apply JSSet_add_elem].
        unfold BaseAdapter.join. simpl. by rewrite lookup_alter_eq, Hs.
    + apply IH; [|done]. exists (JSSet.add r s).
      unfold BaseAdapter.join. simpl. by rewrite lookup_alter_eq, Hs.
Qed.

Lemma base_addAll_member id rs a room :
  room ∈ rs →
  id ∈ BaseAdapter.members (BaseAdapter.addAll id rs a) room ∧
  ∃ s, sids (BaseAdapter.addAll id rs a) !! id = Some s ∧ room ∈ s.
Proof.
  intros Hin. unfold BaseAdapter.addAll. apply base_joins_member; [|done].
  destruct (sids a !! id) eqn:E; [by rewrite E|].
  simpl. rewrite lookup_insert_eq. eauto.
Qed.

Lemma base_addAll_record id rs a : is_Some (sids (BaseAdapter.addAll id rs a) !! id).
Proof.
  unfold BaseAdapter.addAll.
  set (a0 := match sids a !! id with Some _ => a | None => _ end).
  assert (H0 : is_Some (sids a0 !! id)).
  { subst a0. destruct (sids a !! id) eqn:E; [by rewrite E|].
    simpl. rewrite lookup_insert_eq. eauto. }
  clearbody a0. revert a0 H0.
  induction rs as [|r rs IH]; intros a0 [s Hs]; simpl; [eauto|].
  apply IH. unfold BaseAdapter.join. simpl. rewrite lookup_alter_eq, Hs. eauto.
Qed.

Lemma apply_quiet opts (callback : Socket → World → World) :
  (∀ socket w, ∃ es,
      callback socket w = mkWorld (adapter w) (effects w ++ es) ∧ publishCalls es = 0) →
  ∀ w, ∃ es,
    BaseAdapter.apply opts callback w = mkWorld (adapter w) (effects w ++ es)
    ∧ publishCalls es = 0.
Proof.
  intros Hcb w. unfold BaseAdapter.apply.
  generalize (BaseAdapter.matching (adapter w) opts). intros l.
  revert w. induction l as [|s l IH]; intros w; simpl.
  - exists []. rewrite app_nil_r. by destruct w.
  - destruct (Hcb s w) as (es1 & -> & H1).
    destruct (IH (mkWorld (adapter w) (effects w ++ es1))) as (es2 & -> & H2).
    exists (es1 ++ es2). simpl. rewrite app_assoc. split; [done|].
    rewrite publishCalls_app. lia.
Qed.

Lemma publish_all (topic : string) (frames : list Frame) (w : World) :
  foldl (λ w encodedPacket,
           match encodedPacket with
           | TextFrame s => perform (Publish topic (TextFrame ("4" +:+ s)) false) w
           | BinaryFrame _ => perform (Publish topic encodedPacket true) w
           end) w frames
  = mkWorld (adapter w) (effects w ++ map (published topic) frames).
Proof.
  revert w. induction frames as [|fr frames IH]; intros w; simpl.
  - rewrite app_nil_r. by destruct w.
  - rewrite IH. destruct fr; simpl; by rewrite <- app_assoc.
Qed.

(** C1. [broadcast] takes the fast topic-publish path if and only if the
    selector has [rooms.size <= 1] and [except.size == 0]. On that path the
    calls it makes are one [app.publish] per frame of the single encoding of
    the packet, to the one topic, followed by direct writes only; so the
    number of publish calls is the number of encoded frames whatever the
    adapter state (however many connections match). Otherwise it is the
    original broadcast, which publishes nothing. *)
Theorem broadcast_fast_path_iff (encode : Packet → list Frame) (packet : Packet)
    (rs ex : JSSet.t) (fl : option BroadcastFlags) (w : World) :
  let opts := mkOpts rs (Some ex) fl in
  let frames := encode (mkPacket (ptype packet) (Some (nsp_name (adapter w))) (pdata packet)) in
  let topic :=
    match JSSet.first rs with
    | None => nsp_name (adapter w)
    | Some room => nsp_name (adapter w) +:+ SEPARATOR +:+ room
    end in
  (PatchedAdapter.useFastPublish opts = Return true
     ↔ JSSet.size rs ≤ 1 ∧ JSSet.size ex = 0)
  ∧ (JSSet.size rs ≤ 1 ∧ JSSet.size ex = 0 →
       PatchedAdapter.broadcast encode packet opts w
         = Return (PatchedAdapter.fastPublish encode packet opts w)
       ∧ ∃ writes,
           effects (PatchedAdapter.fastPublish encode packet opts w)
             = effects w ++ map (published topic) frames ++ writes
           ∧ publishCalls writes = 0
           ∧ publishCalls (map (published topic) frames ++ writes) = length frames)
  ∧ (¬ (JSSet.size rs ≤ 1 ∧ JSSet.size ex = 0) →
       PatchedAdapter.broadcast encode packet opts w
         = Return (PatchedAdapter.baseBroadcast encode packet opts w)
       ∧ ∃ writes,
           effects (PatchedAdapter.baseBroadcast encode packet opts w)
             = effects w ++ writes
           ∧ publishCalls writes = 0).
Proof.
  intros opts frames topic.
  assert (Hiff : PatchedAdapter.useFastPublish opts = Return true
                 ↔ JSSet.size rs ≤ 1 ∧ JSSet.size ex = 0).
  { unfold PatchedAdapter.useFastPublish, opts. simpl.
    repeat case_bool_decide; split; try tauto; try congruence; intros; lia. }
  split; [exact Hiff|]. split.
  - intros Hc. apply Hiff in Hc. unfold PatchedAdapter.broadcast. rewrite Hc.
    split; [done|].
    set (cb := λ (socket : Socket) (w0 : World),
                 if bool_decide (transport_name socket ≠ "websocket")
                 then perform (WriteToEngine (sock_id socket) frames
                                 (mkPacketOpts true
                                    (f_volatile (default noFlags (o_flags opts)))
                                    (f_compress (default noFlags (o_flags opts))))) w0
                 else w0).
    assert (Hfast : PatchedAdapter.fastPublish encode packet opts w
                    = BaseAdapter.apply opts cb
                        (mkWorld (adapter w) (effects w ++ map (published topic) frames))).
    { unfold PatchedAdapter.fastPublish. rewrite publish_all. reflexivity. }
    destruct (apply_quiet opts cb) with
      (mkWorld (adapter w) (effects w ++ map (published topic) frames))
      as (writes & Hw & Hq).
    { intros socket w0. unfold cb. case_bool_decide.
      - eexists [_]. split; [reflexivity|done].
      - exists []. rewrite app_nil_r. by destruct w0. }
    exists writes. rewrite Hfast, Hw. simpl. rewrite <- app_assoc.
    split; [done|]. split; [done|].
    rewrite publishCalls_app, publishCalls_published. lia.
  - intros Hc. unfold PatchedAdapter.broadcast.
    destruct (PatchedAdapter.useFastPublish opts) as [[|]|e] eqn:E.
    + exfalso. by apply Hc, Hiff.
    + split; [done|].
      set (cb := λ socket : Socket,
                   perform (WriteToEngine (sock_id socket) frames
                              (mkPacketOpts true
                                 (f_volatile (default noFlags (o_flags opts)))
                                 (f_compress (default noFlags (o_flags opts)))))).
      assert (Hbase : PatchedAdapter.baseBroadcast encode packet opts w
                      = BaseAdapter.apply opts cb w) by reflexivity.
      destruct (apply_quiet opts cb) with w as (writes & Hw & Hq).
      { intros socket w0. eexists [_]. split; [reflexivity|done]. }
      exists writes. by rewrite Hbase, Hw.
    + unfold PatchedAdapter.useFastPublish, opts in E. simpl in E.
      by case_bool_decide.
Qed.

(** C6. When the connection object exists in the namespace: for a connection
    with no prior room entry, [addAll] subscribes its transport to the
    namespace topic once, then to each derived room topic, and then notifies
    the connection logger with the namespace name and the connection id; for
    a connection that already had an entry it subscribes to the derived room
    topics only and does not notify the logger. *)
Theorem addAll_subscribes_and_logs (useWsLibrary : bool) (id : SocketId)
    (rs : JSSet.t) (w : World) (socket : Socket) :
  nsp_sockets (adapter w) !! id = Some socket →
  sock_id socket = id →
  let ns := nsp_name (adapter w) in
  let ws := transport_socket socket in
  let roomTopics := map (λ room, Subscribe ws (ns +:+ SEPARATOR +:+ room)) rs in
  (Subscribe ws ns ∉ roomTopics)
  ∧ (sids (adapter w) !! id = None →
       effects (PatchedAdapter.addAll useWsLibrary id rs w)
         = effects w ++ [Subscribe ws ns] ++ roomTopics ++ [LogConnection ns id])
  ∧ (is_Some (sids (adapter w) !! id) →
       effects (PatchedAdapter.addAll useWsLibrary id rs w)
         = effects w ++ roomTopics).
Proof.
  intros Hsock Hid ns ws roomTopics.
  destruct (base_addAll_frame id rs (adapter w)) as [Hname Hsocks].
  split.
  { unfold roomTopics. intros Hin. apply list_elem_of_fmap in Hin as (room & Heq & _).
    injection Heq as Heq. symmetry in Heq. by apply topic_not_namespace in Heq. }
  split; intros Hs; unfold PatchedAdapter.addAll; simpl; rewrite Hsocks, Hsock.
  - rewrite Hs. rewrite bool_decide_eq_false_2 by (intros [? ?]; done). simpl.
    rewrite handleWsLibrary_effects, handleUWebSockets_effects.
    destruct useWsLibrary; simpl; rewrite Hname, Hid;
      by rewrite <- !app_assoc.
  - rewrite bool_decide_eq_true_2 by done. simpl.
    rewrite handleWsLibrary_effects, handleUWebSockets_effects.
    destruct useWsLibrary; simpl; by rewrite Hname.
Qed.

(** C10. When the namespace has no socket object for the connection
    identifier, [addAll] still updates the membership tables exactly as the
    original [addAll] does (the record exists afterwards and the connection
    is in every room of the argument), and makes no call at all: no transport
    subscription and no logger notification, whether or not the connection is
    new. *)
Theorem addAll_without_socket (useWsLibrary : bool) (id : SocketId)
    (rs : JSSet.t) (w : World) :
  nsp_sockets (adapter w) !! id = None →
  let w' := PatchedAdapter.addAll useWsLibrary id rs w in
  adapter w' = BaseAdapter.addAll id rs (adapter w)
  ∧ is_Some (sids (adapter w') !! id)
  ∧ (∀ room, room ∈ rs →
       id ∈ BaseAdapter.members (adapter w') room
       ∧ ∃ s, sids (adapter w') !! id = Some s ∧ room ∈ s)
  ∧ effects w' = effects w.
Proof.
  intros Hsock w'.
  destruct (base_addAll_frame id rs (adapter w)) as [_ Hsocks].
  assert (Hw : w' = mkWorld (BaseAdapter.addAll id rs (adapter w)) (effects w)).
  { unfold w', PatchedAdapter.addAll. simpl. by rewrite Hsocks, Hsock. }
  rewrite Hw. simpl. split; [done|]. split; [apply base_addAll_record|].
  split; [|done]. intros room Hin. by apply base_addAll_member.
Qed.

Lemma base_del_removed id room a :
  (id ∉ BaseAdapter.members (BaseAdapter.del id room a) room)
  ∧ ∀ s, sids (BaseAdapter.del id room a) !! id = Some s → room ∉ s.
Proof.
  split.
  - unfold BaseAdapter.members, BaseAdapter.del. simpl.
    destruct (rooms a !! room) as [m|] eqn:E.
    + simpl. case_decide.
      * rewrite lookup_delete_eq. apply not_elem_of_nil.
      * rewrite lookup_insert_eq. simpl. apply JSSet_delete_not_elem.
    + rewrite E. apply not_elem_of_nil.
  - intros s. unfold BaseAdapter.del. simpl. rewrite lookup_alter_eq.
    destruct (sids a !! id) as [s0|]; simpl; [|done].
    intros [= <-]. apply JSSet_delete_not_elem.
Qed.

Lemma base_del_absent id room a :
  id ∉ BaseAdapter.members a room →
  (∀ s, sids a !! id = Some s → room ∉ s) →
  rooms a !! room ≠ Some [] →
  BaseAdapter.del id room a = a.
Proof.
  intros Hm Hs Hne. unfold BaseAdapter.del. destruct a as [n so si ro]. simpl in *.
  f_equal.
  - apply alter_id. intros s E. apply JSSet_delete_absent. by apply Hs.
  - unfold BaseAdapter.members in Hm. simpl in Hm.
    destruct (ro !! room) as [m|] eqn:E; [|done]. simpl in *.
    rewrite (JSSet_delete_absent id m Hm).
    case_decide; [congruence|]. by apply insert_id.
Qed.

(** C7 (as amended). [del] removes the connection from the room's membership
    set (and the room from the connection's record). If the connection is
    still live, the only call made is one unsubscribe of its transport from
    the topic derived from the socket's namespace name, the separator and
    that room, whether or not the connection was in the room; if it is not
    live no call is made. For a room the connection is not in, the
    membership tables are left as they were (a room without member being
    absent), and that unsubscribe call leaves every transport's topic set as
    it was whenever the topic is not among the subscribed ones. *)
Theorem del_unsubscribes_one_topic (useWsLibrary : bool) (id : SocketId)
    (room : Room) (w : World) :
  let w' := PatchedAdapter.del useWsLibrary id room w in
  ((id ∉ BaseAdapter.members (adapter w') room)
   ∧ ∀ s, sids (adapter w') !! id = Some s → room ∉ s)
  ∧ (∀ socket, nsp_sockets (adapter w) !! id = Some socket →
       effects w' = effects w ++
         [Unsubscribe (transport_socket socket)
            (sock_nsp_name socket +:+ SEPARATOR +:+ room)])
  ∧ (nsp_sockets (adapter w) !! id = None → effects w' = effects w)
  ∧ (id ∉ BaseAdapter.members (adapter w) room →
     (∀ s, sids (adapter w) !! id = Some s → room ∉ s) →
     rooms (adapter w) !! room ≠ Some [] →
     adapter w' = adapter w
     ∧ ∀ ws,
         (∀ socket, nsp_sockets (adapter w) !! id = Some socket →
            sock_nsp_name socket +:+ SEPARATOR +:+ room
              ∉ subscriptions (transport_socket socket) (effects w)) →
         subscriptions ws (effects w') = subscriptions ws (effects w)).
Proof.
  intros w'.
  assert (Hw : w' = match nsp_sockets (adapter w) !! id with
                    | Some socket =>
                        mkWorld (BaseAdapter.del id room (adapter w))
                          (effects w ++
                             [Unsubscribe (transport_socket socket)
                                (sock_nsp_name socket +:+ SEPARATOR +:+ room)])
                    | None => mkWorld (BaseAdapter.del id room (adapter w)) (effects w)
                    end).
  { unfold w', PatchedAdapter.del. simpl.
    destruct (nsp_sockets (adapter w) !! id); [|done]. by destruct useWsLibrary. }
  assert (Ha : adapter w' = BaseAdapter.del id room (adapter w)).
  { rewrite Hw. by destruct (nsp_sockets (adapter w) !! id). }
  split; [rewrite Ha; apply base_del_removed|].
  split; [intros socket Hs; by rewrite Hw, Hs|].
  split; [intros Hs; by rewrite Hw, Hs|].
  intros Hm Hrec Hne. split; [rewrite Ha; by apply base_del_absent|].
  intros ws Hsub. rewrite Hw.
  destruct (nsp_sockets (adapter w) !! id) as [socket|] eqn:E; [|done].
  simpl. rewrite subscriptions_snoc. case_decide as Hws; [|done].
  subst ws. apply JSSet_delete_absent. by apply Hsub.
Qed.

(** ** The operator heap *)

Lemma insert_last (h : Heap) (o o' : HeapObj) :
  <[length h := o']> (h ++ [o]) = h ++ [o'].
Proof. induction h as [|x h IH]; simpl; [done|]. by rewrite IH. Qed.

Lemma lookup_last (h : Heap) (o : HeapObj) : (h ++ [o]) !! length h = Some o.
Proof. by apply list_lookup_middle. Qed.

Lemma lookup_old (h k : Heap) (l : loc) (o : HeapObj) :
  h !! l = Some o → (h ++ k) !! l = Some o.
Proof. apply lookup_app_l_Some. Qed.

Lemma forEach_Set_add (l : loc) (rs : list Room) : ∀ (s : JSSet.t) (h : Heap),
  h !! l = Some (HSet s) →
  forEach rs (Set_add l) h
  = Some (tt, <[l := HSet (foldl (λ s r, JSSet.add r s) s rs)]> h).
Proof.
  induction rs as [|r rs IH]; intros s h Hl; simpl.
  - by rewrite list_insert_id.
  - unfold mbind, HeapM_bind. unfold Set_add at 1. rewrite Hl.
    rewrite (IH (JSSet.add r s)).
    + by rewrite list_insert_insert_eq.
    + apply list_lookup_insert_eq. by eapply lookup_lt_Some.
Qed.

Lemma addRooms_at (room : RoomArg) (s : JSSet.t) (h : Heap) :
  match room with
  | Many rs => forEach rs (Set_add (length h))
  | One r => Set_add (length h) r
  end (h ++ [HSet s])
  = Some (tt, h ++ [HSet (addRooms room s)]).
Proof.
  destruct room as [r|rs]; simpl.
  - unfold Set_add. by rewrite lookup_last, insert_last.
  - rewrite (forEach_Set_add _ _ s) by apply lookup_last. by rewrite insert_last.
Qed.

Lemma assigned_noFlags (fl : BroadcastFlags) : assigned noFlags fl = fl.
Proof. destruct fl as [[] [] [] [] []]; reflexivity. Qed.

Lemma withFlags_result (extra : BroadcastFlags) (h : Heap) (this : loc)
    (ad : AdapterRef) (r e f : loc) (fl : BroadcastFlags) :
  h !! this = Some (HOperator ad r e f) →
  h !! f = Some (HFlags fl) →
  BroadcastOperator.withFlags extra this h
  = Some (S (length h),
          (h ++ [HFlags (assigned fl extra)]) ++ [HOperator ad r e (length h)]).
Proof.
  intros Hthis Hf.
  unfold BroadcastOperator.withFlags, mbind, HeapM_bind, getOperator, getFlags, new.
  rewrite Hthis. simpl. rewrite Hf. simpl.
  unfold Object_assign. rewrite lookup_last, insert_last, assigned_noFlags.
  rewrite lookup_last, insert_last. simpl.
  rewrite length_app. simpl. do 3 f_equal. lia.
Qed.

Lemma to_result (room : RoomArg) (h : Heap) (this : loc)
    (ad : AdapterRef) (r e f : loc) (s : JSSet.t) :
  h !! this = Some (HOperator ad r e f) →
  h !! r = Some (HSet s) →
  BroadcastOperator.to room this h
  = Some (S (length h),
          (h ++ [HSet (addRooms room s)]) ++ [HOperator ad (length h) e f]).
Proof.
  intros Hthis Hr.
  unfold BroadcastOperator.to, mbind, HeapM_bind, getOperator, getSet, new.
  rewrite Hthis. simpl. rewrite Hr. simpl.
  rewrite addRooms_at. rewrite length_app. simpl. do 3 f_equal. lia.
Qed.

Lemma except_result (room : RoomArg) (h : Heap) (this : loc)
    (ad : AdapterRef) (r e f : loc) (s : JSSet.t) :
  h !! this = Some (HOperator ad r e f) →
  h !! e = Some (HSet s) →
  BroadcastOperator.except room this h
  = Some (S (length h),
          (h ++ [HSet (addRooms room s)]) ++ [HOperator ad r (length h) f]).
Proof.
  intros Hthis He.
  unfold BroadcastOperator.except, mbind, HeapM_bind, getOperator, getSet, new.
  rewrite Hthis. simpl. rewrite He. simpl.
  rewrite addRooms_at. rewrite length_app. simpl. do 3 f_equal. lia.
Qed.

Lemma operator_at_old (h k : Heap) this ad rs ex fl :
  operator_at h this ad rs ex fl → operator_at (h ++ k) this ad rs ex fl.
Proof.
  intros (r & e & f & H1 & H2 & H3 & H4). exists r, e, f.
  repeat split; by apply lookup_old.
Qed.

Lemma selector_result (h : Heap) this ad rs ex fl :
  operator_at h this ad rs ex fl →
  BroadcastOperator.selector this h = Some (mkOpts rs (Some ex) (Some fl), h).
Proof.
  intros (r & e & f & H1 & H2 & H3 & H4).
  unfold BroadcastOperator.selector, mbind, HeapM_bind, getOperator, getSet, getFlags.
  rewrite H1. simpl. rewrite H2. simpl. rewrite H3. simpl. by rewrite H4.
Qed.

(** C5. Every chaining call ([to], [in], [except], [compress], [volatile],
    [local], [timeout]) on an operator returns a new operator object, at a
    location that was free, and leaves every object that existed before the
    call as it was: the receiver still has the same rooms, except set and
    flags, while the new operator has the extended copy. *)
Theorem chaining_never_mutates (c : Chain) (h : Heap) (a : loc)
    (ad : AdapterRef) (rs ex : JSSet.t) (fl : BroadcastFlags) :
  operator_at h a ad rs ex fl →
  ∃ b h',
    chain c a h = Some (b, h')
    ∧ b ≠ a
    ∧ h !! b = None
    ∧ (∀ l o, h !! l = Some o → h' !! l = Some o)
    ∧ operator_at h' a ad rs ex fl
    ∧ operator_at h' b ad (chainedRooms c rs) (chainedExcept c ex) (chainedFlags c fl).
Proof.
  intros Hop. pose proof Hop as (r & e & f & Hthis & Hr & He & Hf).
  assert (Hlt : a < length h) by (by eapply lookup_lt_Some).
  assert (Hshape : ∀ o1 o2 rs' ex' fl',
            operator_at ((h ++ [o1]) ++ [o2]) (S (length h)) ad rs' ex' fl' →
            chain c a h = Some (S (length h), (h ++ [o1]) ++ [o2]) →
            ∃ b h',
              chain c a h = Some (b, h') ∧ b ≠ a ∧ h !! b = None
              ∧ (∀ l o, h !! l = Some o → h' !! l = Some o)
              ∧ operator_at h' a ad rs ex fl
              ∧ operator_at h' b ad rs' ex' fl').
  { intros o1 o2 rs' ex' fl' Hnew Hrun.
    exists (S (length h)), ((h ++ [o1]) ++ [o2]).
    split; [done|]. split; [lia|]. split; [apply lookup_ge_None_2; lia|].
    split; [intros l o Hl; by do 2 apply lookup_old|].
    split; [by do 2 apply operator_at_old|done]. }
  assert (Hat : ∀ o1 o2, ((h ++ [o1]) ++ [o2]) !! S (length h) = Some o2).
  { intros o1 o2. replace (S (length h)) with (length (h ++ [o1]))
      by (rewrite length_app; simpl; lia). apply lookup_last. }
  assert (Hmid : ∀ o1 o2, ((h ++ [o1]) ++ [o2]) !! length h = Some o1).
  { intros o1 o2. apply lookup_old, lookup_last. }
  assert (Hflags : ∀ extra,
            BroadcastOperator.withFlags extra a h = chain c a h →
            assigned fl extra = chainedFlags c fl →
            chainedRooms c rs = rs → chainedExcept c ex = ex →
            ∃ b h',
              chain c a h = Some (b, h') ∧ b ≠ a ∧ h !! b = None
              ∧ (∀ l o, h !! l = Some o → h' !! l = Some o)
              ∧ operator_at h' a ad rs ex fl
              ∧ operator_at h' b ad (chainedRooms c rs) (chainedExcept c ex)
                  (chainedFlags c fl)).
  { intros extra Hrun Hfl -> ->.
    apply (Hshape (HFlags (assigned fl extra)) (HOperator ad r e (length h))).
    - exists r, e, (length h). rewrite Hat, Hmid, Hfl.
      split; [done|]. split; [by do 2 apply lookup_old|].
      split; [by do 2 apply lookup_old|done].
    - rewrite <- Hrun. by eapply withFlags_result. }
  destruct c as [room|room|room|b| | |t]; simpl chain.
  - apply (Hshape (HSet (addRooms room rs)) (HOperator ad (length h) e f));
      [|by eapply to_result].
    exists (length h), e, f. rewrite Hat, Hmid.
    split; [done|]. split; [done|]. split; by do 2 apply lookup_old.
  - apply (Hshape (HSet (addRooms room rs)) (HOperator ad (length h) e f));
      [|by eapply to_result].
    exists (length h), e, f. rewrite Hat, Hmid.
    split; [done|]. split; [done|]. split; by do 2 apply lookup_old.
  - apply (Hshape (HSet (addRooms room ex)) (HOperator ad r (length h) f));
      [|by eapply except_result].
    exists r, (length h), f. rewrite Hat, Hmid.
    split; [done|]. split; [by do 2 apply lookup_old|].
    split; [done|by do 2 apply lookup_old].
  - apply (Hflags (mkFlags None (Some b) None None None)); done.
  - apply (Hflags (mkFlags (Some true) None None None None)); done.
  - apply (Hflags (mkFlags None None (Some true) None None)); done.
  - apply (Hflags (mkFlags None None None (Some t) None)); done.
Qed.

(** ** [emit] *)

Lemma emit_reserved (RESERVED_EVENTS : JSSet.t) (dflt : Z) (ev : string)
    (args : list value) (this : loc) (h : Heap) :
  JSSet.has ev RESERVED_EVENTS = true →
  BroadcastOperator.emit RESERVED_EVENTS dflt ev args this h
  = Some (Throw (Error (dquote +:+ ev +:+ dquote +:+ " is a reserved event name")), h).
Proof. intros Hres. unfold BroadcastOperator.emit. by rewrite Hres. Qed.

Lemma emit_with_ack (RESERVED_EVENTS : JSSet.t) (dflt : Z) (ev : string)
    (args : list value) (k : nat) (this : loc) (h : Heap) ad rs ex fl :
  operator_at h this ad rs ex fl →
  JSSet.has ev RESERVED_EVENTS = false →
  BroadcastOperator.emit RESERVED_EVENTS dflt ev (args ++ [VFun k]) this h
  = Some (Return (mkEmit true
            [CallSetTimeout (f_timeout fl);
             CallBroadcastWithAck (mkPacket EVENT None (VStr ev :: args))
               (mkOpts rs (Some ex) (Some fl));
             CallServerCount]
            (Some k) (Some (initialAck dflt fl))), h).
Proof.
  intros Hop Hres. unfold BroadcastOperator.emit. rewrite Hres.
  unfold mbind, HeapM_bind. rewrite (selector_result _ _ _ _ _ _ Hop).
  change (VStr ev :: args ++ [VFun k]) with ((VStr ev :: args) ++ [VFun k]).
  by rewrite last_snoc, removelast_last.
Qed.

Lemma emit_returns (RESERVED_EVENTS : JSSet.t) (dflt : Z) (ev : string)
    (args : list value) (this : loc) (h : Heap) ad rs ex fl :
  operator_at h this ad rs ex fl →
  JSSet.has ev RESERVED_EVENTS = false →
  ∃ r, BroadcastOperator.emit RESERVED_EVENTS dflt ev args this h = Some (Return r, h)
       ∧ returned r = true.
Proof.
  intros Hop Hres. unfold BroadcastOperator.emit. rewrite Hres.
  unfold mbind, HeapM_bind. rewrite (selector_result _ _ _ _ _ _ Hop).
  destruct (last (VStr ev :: args)) as [[]|]; eauto.
Qed.

(** C8. [emit] with an event name of the reserved set throws at once: the
    outcome is the error, no packet has been built, no call has been made on
    the adapter or the timer, and the heap is untouched. For any other name
    [emit] throws nothing and returns [true]. *)
Theorem emit_reserved_event_throws (RESERVED_EVENTS : JSSet.t) (dflt : Z)
    (ev : string) (args : list value) (this : loc) (h : Heap) :
  (ev ∈ RESERVED_EVENTS →
     BroadcastOperator.emit RESERVED_EVENTS dflt ev args this h
     = Some (Throw (Error (dquote +:+ ev +:+ dquote +:+ " is a reserved event name")), h))
  ∧ (ev ∉ RESERVED_EVENTS →
     ∀ ad rs ex fl, operator_at h this ad rs ex fl →
       ∃ r, BroadcastOperator.emit RESERVED_EVENTS dflt ev args this h
              = Some (Return r, h)
            ∧ returned r = true).
Proof.
  split.
  - intros Hin. apply emit_reserved. unfold JSSet.has. by apply bool_decide_eq_true_2.
  - intros Hnin ad rs ex fl Hop. eapply emit_returns; [done|].
    unfold JSSet.has. by apply bool_decide_eq_false_2.
Qed.

(** ** The aggregation state machine *)

Lemma step_update (s : AckState) (e : AckEvent) :
  e ≠ DeadlineExpired → step s e = checkCompleteness (update s e).
Proof. by destruct e. Qed.

Lemma run_snoc (s : AckState) (evs : list AckEvent) (e : AckEvent) :
  run s (evs ++ [e]) = step (run s evs) e.
Proof. unfold run. by rewrite foldl_app. Qed.

Lemma checkCompleteness_data (s : AckState) :
  ack_flags (checkCompleteness s) = ack_flags s
  ∧ timedOut (checkCompleteness s) = timedOut s
  ∧ responses (checkCompleteness s) = responses s
  ∧ expectedServerCount (checkCompleteness s) = expectedServerCount s
  ∧ actualServerCount (checkCompleteness s) = actualServerCount s
  ∧ expectedClientCount (checkCompleteness s) = expectedClientCount s.
Proof. unfold checkCompleteness. by destruct (complete s). Qed.

Lemma complete_checkCompleteness (s : AckState) :
  complete (checkCompleteness s) = complete s.
Proof.
  destruct (checkCompleteness_data s) as (_ & H2 & H3 & H4 & H5 & H6).
  unfold complete. by rewrite H2, H3, H4, H5, H6.
Qed.

Lemma checkCompleteness_fires (s : AckState) :
  complete s = true →
  invocations (checkCompleteness s)
    = invocations s ++ [resolved (ack_flags s) (responses s)]
  ∧ timer (checkCompleteness s) = clearTimeout (timer s).
Proof. intros H. unfold checkCompleteness. by rewrite H. Qed.

Lemma checkCompleteness_quiet (s : AckState) :
  complete s = false → checkCompleteness s = s.
Proof. intros H. unfold checkCompleteness. by rewrite H. Qed.

Lemma sumZ_app (l1 l2 : list Z) : sumZ (l1 ++ l2) = (sumZ l1 + sumZ l2)%Z.
Proof. induction l1 as [|x l1 IH]; simpl; [done|]. rewrite IH. lia. Qed.

#[export] Instance sumZ_Permutation : Proper ((≡ₚ) ==> (=)) sumZ.
Proof.
  intros l1 l2 H. induction H; simpl; try lia.
Qed.

Lemma run_data (evs : list AckEvent) (s : AckState) :
  DeadlineExpired ∉ evs →
  ack_flags (run s evs) = ack_flags s
  ∧ timedOut (run s evs) = timedOut s
  ∧ responses (run s evs) = responses s ++ clientResponses evs
  ∧ expectedServerCount (run s evs)
    = default (expectedServerCount s) (last (serverCounts evs))
  ∧ actualServerCount (run s evs)
    = (actualServerCount s + Z.of_nat (length (serverReports evs)))%Z
  ∧ expectedClientCount (run s evs)
    = (expectedClientCount s + sumZ (serverReports evs))%Z.
Proof.
  induction evs as [|e evs IH] using rev_ind; intros Hnd.
  - simpl. rewrite app_nil_r. repeat split; lia.
  - rewrite not_elem_of_app in Hnd. destruct Hnd as [Hnd He].
    destruct (IH Hnd) as (H1 & H2 & H3 & H4 & H5 & H6).
    rewrite run_snoc, step_update
      by (intros ->; apply He; by apply list_elem_of_singleton).
    destruct (checkCompleteness_data (update (run s evs) e))
      as (-> & -> & -> & -> & -> & ->).
    unfold serverReports, clientResponses, serverCounts. rewrite !omap_app.
    fold (serverReports evs) (clientResponses evs) (serverCounts evs).
    destruct e as [n|r|n|]; simpl; rewrite ?app_nil_r, ?H1, ?H2, ?H3, ?H4, ?H5, ?H6.
    + rewrite length_app, sumZ_app. simpl. repeat split; lia.
    + rewrite app_assoc. done.
    + rewrite last_snoc. done.
    + done.
Qed.

Lemma quiet_run (evs : list AckEvent) (s : AckState) :
  DeadlineExpired ∉ evs →
  (∀ p, p `prefix_of` evs → complete (run s p) = false) →
  invocations (run s evs) = invocations s ∧ timer (run s evs) = timer s.
Proof.
  induction evs as [|e evs IH] using rev_ind; intros Hnd Hq; [done|].
  rewrite not_elem_of_app in Hnd. destruct Hnd as [Hnd He].
  assert (Hne : e ≠ DeadlineExpired)
    by (intros ->; apply He; by apply list_elem_of_singleton).
  destruct IH as [Hi Ht]; [done| |].
  { intros p Hp. apply Hq. by apply prefix_app_r. }
  pose proof (Hq (evs ++ [e]) (reflexivity _)) as Hc.
  rewrite run_snoc, step_update in Hc by done.
  rewrite complete_checkCompleteness in Hc.
  rewrite run_snoc, step_update, checkCompleteness_quiet by done.
  rewrite <- Hi, <- Ht. by destruct e.
Qed.

Lemma inert_run (late : list AckEvent) : ∀ s : AckState,
  timedOut s = true →
  (∀ d, timer s ≠ TimerPending d) →
  invocations (run s late) = invocations s.
Proof.
  induction late as [|e late IH]; intros s Hto Htimer; [done|].
  simpl. assert (Hstep : step s e = update s e).
  { destruct e as [n|r|n|]; simpl.
    - apply checkCompleteness_quiet. unfold complete. simpl. by rewrite Hto.
    - apply checkCompleteness_quiet. unfold complete. simpl. by rewrite Hto.
    - apply checkCompleteness_quiet. unfold complete. simpl. by rewrite Hto.
    - unfold onDeadline. destruct (timer s) eqn:E; [by destruct (Htimer delay)|done..]. }
  rewrite Hstep. rewrite IH; by destruct e.
Qed.

Lemma invocations_grow (s : AckState) (e : AckEvent) :
  ∃ more, invocations (step s e) = invocations s ++ more.
Proof.
  destruct e as [n|r|n|]; simpl;
    try (unfold onServerResponded, onClientResponded, onServerCount, checkCompleteness;
         match goal with |- context [complete ?u] => destruct (complete u) end;
         simpl; [eexists [_]; reflexivity | exists []; by rewrite app_nil_r]).
  unfold onDeadline. destruct (timer s); simpl;
    [eexists [_]; reflexivity | exists []; by rewrite app_nil_r..].
Qed.

Lemma armed_until_called (evs : list AckEvent) (s : AckState) :
  (invocations s = [] → ∃ d, timer s = TimerPending d) →
  invocations (run s evs) = [] → ∃ d, timer (run s evs) = TimerPending d.
Proof.
  induction evs as [|e evs IH] using rev_ind; intros Hs; [done|].
  rewrite run_snoc. specialize (IH Hs). intros Hnil.
  destruct (invocations_grow (run s evs) e) as [more Hmore].
  rewrite Hnil in Hmore. symmetry in Hmore. apply app_eq_nil in Hmore as [Hprev ->].
  destruct (IH Hprev) as [d Hd].
  destruct e as [n|r|n|]; simpl in *.
  - unfold onServerResponded, checkCompleteness in *.
    match goal with H : context [complete ?u] |- _ => destruct (complete u) end;
      simpl in *; [by destruct (invocations (run s evs))|eauto].
  - unfold onClientResponded, checkCompleteness in *.
    match goal with H : context [complete ?u] |- _ => destruct (complete u) end;
      simpl in *; [by destruct (invocations (run s evs))|eauto].
  - unfold onServerCount, checkCompleteness in *.
    match goal with H : context [complete ?u] |- _ => destruct (complete u) end;
      simpl in *; [by destruct (invocations (run s evs))|eauto].
  - unfold onDeadline in Hnil. rewrite Hd in Hnil. simpl in Hnil.
    by destruct (invocations (run s evs)).
Qed.

(** ** Interleavings of the reports of a complete round *)

Lemma omap_fmap_Some {A B} (f : B → option A) (g : A → B) (l : list A) :
  (∀ x, f (g x) = Some x) → omap f (g <$> l) = l.
Proof. intros H. induction l as [|x l IH]; csimpl; [done|]. by rewrite H, IH. Qed.

Lemma omap_fmap_None {A B C} (f : B → option C) (g : A → B) (l : list A) :
  (∀ x, f (g x) = None) → omap f (g <$> l) = [].
Proof. intros H. induction l as [|x l IH]; csimpl; [done|]. by rewrite H, IH. Qed.

Lemma serverReports_reports counts rs : serverReports (reports counts rs) = counts.
Proof.
  unfold serverReports, reports. rewrite !omap_app.
  rewrite omap_fmap_Some, omap_fmap_None by done. simpl. by rewrite app_nil_r.
Qed.

Lemma clientResponses_reports counts rs : clientResponses (reports counts rs) = rs.
Proof.
  unfold clientResponses, reports. rewrite !omap_app.
  rewrite omap_fmap_Some, omap_fmap_None by done. simpl. by rewrite app_nil_r.
Qed.

Lemma serverCounts_reports counts rs :
  serverCounts (reports counts rs) = [Z.of_nat (length counts)].
Proof.
  unfold serverCounts, reports. rewrite !omap_app.
  by rewrite !omap_fmap_None by done.
Qed.

Lemma reports_no_deadline counts rs : DeadlineExpired ∉ reports counts rs.
Proof.
  unfold reports. rewrite !elem_of_app, !list_elem_of_fmap, list_elem_of_singleton.
  intros [(? & ? & _)|[(? & ? & _)|?]]; discriminate.
Qed.

Lemma event_kinds (evs : list AckEvent) :
  DeadlineExpired ∉ evs →
  length evs = length (serverReports evs) + length (clientResponses evs)
               + length (serverCounts evs).
Proof.
  induction evs as [|e evs IH]; intros Hnd; [done|].
  apply not_elem_of_cons in Hnd as [Hne Hnd]. specialize (IH Hnd).
  destruct e; simpl; try lia. done.
Qed.

Section Round.
Variables (dflt : Z) (fl : BroadcastFlags) (counts : list Z) (rs : list value).
Hypothesis all_acknowledge : Z.of_nat (length rs) = sumZ counts.

Lemma round_split (p rest : list AckEvent) :
  p ++ rest ≡ₚ reports counts rs →
  (DeadlineExpired ∉ p) ∧ (DeadlineExpired ∉ rest)
  ∧ length (serverReports p) + length (serverReports rest) = length counts
  ∧ (sumZ (serverReports p) + sumZ (serverReports rest))%Z = sumZ counts
  ∧ length (clientResponses p) + length (clientResponses rest) = length rs
  ∧ serverCounts p ++ serverCounts rest = [Z.of_nat (length counts)].
Proof.
  intros HP.
  assert (Hnd : DeadlineExpired ∉ p ++ rest)
    by (rewrite HP; apply reports_no_deadline).
  rewrite not_elem_of_app in Hnd. destruct Hnd as [Hp Hr].
  assert (HS : serverReports p ++ serverReports rest ≡ₚ counts).
  { rewrite <- (serverReports_reports counts rs). unfold serverReports.
    by rewrite <- omap_app, HP. }
  assert (HC : clientResponses p ++ clientResponses rest ≡ₚ rs).
  { rewrite <- (clientResponses_reports counts rs). unfold clientResponses.
    by rewrite <- omap_app, HP. }
  assert (HN : serverCounts p ++ serverCounts rest ≡ₚ [Z.of_nat (length counts)]).
  { rewrite <- (serverCounts_reports counts rs). unfold serverCounts.
    by rewrite <- omap_app, HP. }
  apply Permutation_singleton_r in HN.
  repeat split; try done.
  - by rewrite <- length_app, HS.
  - by rewrite <- sumZ_app, HS.
  - by rewrite <- length_app, HC.
Qed.

Lemma round_prefix_incomplete (p rest : list AckEvent) :
  p ++ rest ≡ₚ reports counts rs → rest ≠ [] →
  complete (run (initialAck dflt fl) p) = false.
Proof.
  intros HP Hrest.
  destruct (round_split p rest HP) as (Hp & Hr & HS & HZ & HC & HN).
  destruct (run_data p (initialAck dflt fl) Hp) as (_ & H2 & H3 & H4 & H5 & H6).
  cbn [initialAck responses expectedServerCount actualServerCount
       expectedClientCount timedOut app] in H2, H3, H4, H5, H6.
  rewrite Z.add_0_l in H5, H6.
  pose proof (event_kinds rest Hr) as Hk.
  assert (0 < length rest) by (destruct rest; [done|simpl; lia]).
  assert (Hfar : default (-1)%Z (last (serverCounts p))
                   ≠ Z.of_nat (length (serverReports p))
                 ∨ Z.of_nat (length (clientResponses p)) ≠ sumZ (serverReports p)).
  { destruct (serverCounts p) as [|x l] eqn:EN.
    - left. simpl. lia.
    - simpl in HN. injection HN as -> HN. apply app_eq_nil in HN as [-> HN].
      rewrite HN in Hk. simpl in Hk. simpl.
      destruct (decide (length (serverReports rest) = 0)) as [Hz|Hz]; [right|left; lia].
      destruct (serverReports rest); [|done]. simpl in *. lia. }
  unfold complete. rewrite H2, H3, H4, H5, H6.
  destruct Hfar as [Hfar|Hfar]; apply Z.eqb_neq in Hfar; rewrite Hfar;
    [done|by rewrite andb_false_r].
Qed.

Lemma round_complete (evs : list AckEvent) :
  evs ≡ₚ reports counts rs →
  let final := run (initialAck dflt fl) evs in
  complete final = true
  ∧ ack_flags final = fl
  ∧ responses final = clientResponses evs
  ∧ expectedServerCount final = Z.of_nat (length counts)
  ∧ actualServerCount final = Z.of_nat (length counts)
  ∧ Z.of_nat (length (responses final)) = expectedClientCount final.
Proof.
  intros HP final.
  assert (HP' : evs ++ [] ≡ₚ reports counts rs) by by rewrite app_nil_r.
  destruct (round_split evs [] HP') as (Hp & _ & HS & HZ & HC & HN).
  destruct (run_data evs (initialAck dflt fl) Hp) as (H1 & H2 & H3 & H4 & H5 & H6).
  simpl in *. rewrite app_nil_r in HN. rewrite HN in H4. simpl in H4.
  fold final in H1, H2, H3, H4, H5, H6.
  assert (Hc : complete final = true).
  { unfold complete. rewrite H2, H3, H4, H5, H6. simpl.
    rewrite (proj2 (Z.eqb_eq _ _)) by lia.
    rewrite (proj2 (Z.eqb_eq _ _)) by lia. done. }
  repeat split; try done; rewrite ?H3, ?H5, ?H6; lia.
Qed.

Lemma round_fires_once (evs : list AckEvent) :
  evs ≡ₚ reports counts rs →
  let final := run (initialAck dflt fl) evs in
  invocations final = [resolved fl (clientResponses evs)]
  ∧ timer final = TimerCleared
  ∧ ∀ p rest, evs = p ++ rest → rest ≠ [] →
      invocations (run (initialAck dflt fl) p) = []
      ∧ complete (run (initialAck dflt fl) p) = false.
Proof.
  intros HP final.
  assert (Hquiet : ∀ p rest, evs = p ++ rest → rest ≠ [] →
            (invocations (run (initialAck dflt fl) p) = []
             ∧ timer (run (initialAck dflt fl) p)
               = BroadcastOperator.setTimeout dflt (f_timeout fl))
            ∧ complete (run (initialAck dflt fl) p) = false).
  { intros p rest -> Hrest.
    destruct (round_split p rest HP) as (Hp & _).
    split; [|by eapply round_prefix_incomplete].
    apply (quiet_run p (initialAck dflt fl)); [done|].
    intros p' [k ->]. apply (round_prefix_incomplete p' (k ++ rest)).
    - by rewrite app_assoc.
    - intros [_ ?]%app_eq_nil. done. }
  destruct (round_complete evs HP) as (Hc & Hfl & Hresp & _).
  fold final in Hc, Hfl, Hresp.
  assert (Hlast : ∃ p e, evs = p ++ [e] ∧ e ≠ DeadlineExpired).
  { destruct evs as [|e p _] using rev_ind.
    - apply Permutation_length in HP. unfold reports in HP.
      rewrite !length_app in HP. simpl in HP. lia.
    - exists p, e. split; [done|]. intros ->.
      apply (reports_no_deadline counts rs). rewrite <- HP.
      apply elem_of_app. right. by apply list_elem_of_singleton. }
  destruct Hlast as (p & e & Hevs & Hne).
  destruct (Hquiet p [e] Hevs) as ([Hi Ht] & _); [done|].
  set (u := update (run (initialAck dflt fl) p) e).
  assert (Hfinal : final = checkCompleteness u).
  { unfold final. by rewrite Hevs, run_snoc, step_update. }
  assert (Hu : invocations u = [] ∧
               timer u = BroadcastOperator.setTimeout dflt (f_timeout fl)).
  { unfold u. by destruct e. }
  rewrite Hfinal in Hc, Hfl, Hresp. rewrite complete_checkCompleteness in Hc.
  destruct (checkCompleteness_data u) as (Hf' & _ & Hr' & _).
  destruct (checkCompleteness_fires u Hc) as [Hinv Htim].
  split; [|split].
  - rewrite Hfinal, Hinv, (proj1 Hu). simpl. by rewrite <- Hf', Hfl, <- Hr', Hresp.
  - rewrite Hfinal, Htim, (proj2 Hu). done.
  - intros p' rest H1 H2. split; by eapply Hquiet.
Qed.
End Round.

Lemma run_app (s : AckState) (evs1 evs2 : list AckEvent) :
  run s (evs1 ++ evs2) = run (run s evs1) evs2.
Proof. unfold run. by rewrite foldl_app. Qed.

Lemma has_false (x : string) (s : JSSet.t) : x ∉ s → JSSet.has x s = false.
Proof. intros H. unfold JSSet.has. by apply bool_decide_eq_false_2. Qed.

(** C2 (as amended). After an acknowledgment-seeking emit, when the
    cooperating processes report their matching-client counts, all the
    corresponding acknowledgments arrive and the server count resolves to the
    number of processes, in any interleaving, the ack callback is called
    exactly once, with [null] and the array of all responses in arrival order
    (with [null] and the first response alone when the operator's
    [expectSingleResponse] flag is set); it is called at the last report,
    when the known expected server count equals the actual one and the number
    of responses equals the expected client count, and not before; the timer
    is cancelled, so a later deadline changes nothing. *)
Theorem ack_resolves_exactly_once (RESERVED_EVENTS : JSSet.t) (dflt : Z)
    (ev : string) (args : list value) (k : nat) (this : loc) (h : Heap)
    (ad : AdapterRef) (rsel ex : JSSet.t) (fl : BroadcastFlags)
    (counts : list Z) (rs : list value) (evs : list AckEvent) :
  operator_at h this ad rsel ex fl →
  ev ∉ RESERVED_EVENTS →
  Z.of_nat (length rs) = sumZ counts →
  evs ≡ₚ reports counts rs →
  let s0 := initialAck dflt fl in
  let final := run s0 evs in
  (∃ cs, BroadcastOperator.emit RESERVED_EVENTS dflt ev (args ++ [VFun k]) this h
         = Some (Return (mkEmit true cs (Some k) (Some s0)), h))
  ∧ invocations final
    = [mkInvocation None
         (if truthy (f_expectSingleResponse fl)
          then PValue (default VUndefined (clientResponses evs !! 0))
          else PResponses (clientResponses evs))]
  ∧ clientResponses evs ≡ₚ rs
  ∧ responses final = clientResponses evs
  ∧ expectedServerCount final = Z.of_nat (length counts)
  ∧ actualServerCount final = Z.of_nat (length counts)
  ∧ Z.of_nat (length (responses final)) = expectedClientCount final
  ∧ (∀ p rest, evs = p ++ rest → rest ≠ [] →
       invocations (run s0 p) = [] ∧ complete (run s0 p) = false)
  ∧ run final [DeadlineExpired] = final.
Proof.
  intros Hop Hres Hlen HP s0 final.
  destruct (round_fires_once dflt fl counts rs Hlen evs HP) as (Hinv & Htim & Hbefore).
  destruct (round_complete dflt fl counts rs Hlen evs HP) as (_ & _ & Hr & He & Ha & Hc).
  fold s0 in Hinv, Htim, Hbefore, Hr, He, Ha, Hc. fold final in Hinv, Htim, Hr, He, Ha, Hc.
  split.
  { eexists. by apply (emit_with_ack _ _ _ _ _ _ _ ad rsel ex fl), has_false. }
  split; [exact Hinv|]. split.
  { rewrite <- (clientResponses_reports counts rs). unfold clientResponses. by rewrite HP. }
  do 4 (split; [done|]). split; [exact Hbefore|].
  simpl. unfold onDeadline. by rewrite Htim.
Qed.

(** C3 (as amended). If the deadline expires while the completeness
    condition has never held, the ack callback is called with the timeout
    error and the responses collected so far ([null] in their place when the
    operator's [expectSingleResponse] flag is set), and whatever arrives
    afterwards (responses, server reports, the server count) triggers no
    further call: the callback has been called exactly once. *)
Theorem ack_times_out_exactly_once (RESERVED_EVENTS : JSSet.t) (dflt : Z)
    (ev : string) (args : list value) (k : nat) (this : loc) (h : Heap)
    (ad : AdapterRef) (rsel ex : JSSet.t) (fl : BroadcastFlags)
    (evs late : list AckEvent) :
  operator_at h this ad rsel ex fl →
  ev ∉ RESERVED_EVENTS →
  DeadlineExpired ∉ evs →
  (∀ p, p `prefix_of` evs → complete (run (initialAck dflt fl) p) = false) →
  let s0 := initialAck dflt fl in
  (∃ cs, BroadcastOperator.emit RESERVED_EVENTS dflt ev (args ++ [VFun k]) this h
         = Some (Return (mkEmit true cs (Some k) (Some s0)), h))
  ∧ invocations (run s0 evs) = []
  ∧ invocations (run s0 (evs ++ [DeadlineExpired]))
    = [mkInvocation (Some (Error "operation has timed out"))
         (if truthy (f_expectSingleResponse fl)
          then PNull
          else PResponses (clientResponses evs))]
  ∧ invocations (run s0 (evs ++ DeadlineExpired :: late))
    = invocations (run s0 (evs ++ [DeadlineExpired])).
Proof.
  intros Hop Hres Hnd Hq s0.
  destruct (quiet_run evs s0 Hnd Hq) as [Hi Ht].
  destruct (run_data evs s0 Hnd) as (Hf & _ & Hr & _).
  split.
  { eexists. by apply (emit_with_ack _ _ _ _ _ _ _ ad rsel ex fl), has_false. }
  split; [exact Hi|].
  assert (Hfire : step (run s0 evs) DeadlineExpired
                  = mkAck (ack_flags (run s0 evs)) TimerFired true (responses (run s0 evs))
                      (expectedServerCount (run s0 evs)) (actualServerCount (run s0 evs))
                      (expectedClientCount (run s0 evs))
                      (invocations (run s0 evs) ++
                         [timedOutWith (ack_flags (run s0 evs)) (responses (run s0 evs))])).
  { simpl. unfold onDeadline. by rewrite Ht. }
  split.
  - rewrite run_snoc, Hfire. simpl. by rewrite Hi, Hf, Hr.
  - change (DeadlineExpired :: late) with ([DeadlineExpired] ++ late).
    rewrite app_assoc, run_app. apply inert_run.
    + by rewrite run_snoc, Hfire.
    + intros d. by rewrite run_snoc, Hfire.
Qed.

(** C4. Every acknowledgment-seeking emit starts a deadline timer with
    [flags.timeout]; when [flags.timeout] is unset the timer runs with the
    system's default delay. From then on, as long as the ack callback has not
    been called the timer is still pending, and once the deadline has expired
    the callback has been called: the emit has resolved or timed out. *)
Theorem ack_emit_always_has_deadline (RESERVED_EVENTS : JSSet.t) (dflt : Z)
    (ev : string) (args : list value) (k : nat) (this : loc) (h : Heap)
    (ad : AdapterRef) (rsel ex : JSSet.t) (fl : BroadcastFlags) :
  operator_at h this ad rsel ex fl →
  ev ∉ RESERVED_EVENTS →
  ∃ s0 packet opts,
    BroadcastOperator.emit RESERVED_EVENTS dflt ev (args ++ [VFun k]) this h
    = Some (Return (mkEmit true
              [CallSetTimeout (f_timeout fl);
               CallBroadcastWithAck packet opts;
               CallServerCount]
              (Some k) (Some s0)), h)
    ∧ timer s0 = TimerPending (match f_timeout fl with
                               | Some t => t
                               | None => dflt
                               end)
    ∧ ∀ evs,
        (invocations (run s0 evs) = [] → ∃ d, timer (run s0 evs) = TimerPending d)
        ∧ invocations (run s0 (evs ++ [DeadlineExpired])) ≠ [].
Proof.
  intros Hop Hres. eexists _, _, _. split.
  { by apply (emit_with_ack _ _ _ _ _ _ _ ad rsel ex fl), has_false. }
  split; [unfold initialAck, BroadcastOperator.setTimeout; simpl;
          by destruct (f_timeout fl)|]. intros evs.
  assert (Harmed : invocations (run (initialAck dflt fl) evs) = [] →
                   ∃ d, timer (run (initialAck dflt fl) evs) = TimerPending d).
  { apply armed_until_called. intros _. simpl. eauto. }
  split; [exact Harmed|].
  rewrite run_snoc.
  destruct (invocations (run (initialAck dflt fl) evs)) as [|i rest] eqn:E.
  - destruct (Harmed eq_refl) as [d Hd]. simpl. unfold onDeadline.
    rewrite Hd. simpl. by rewrite E.
  - destruct (invocations_grow (run (initialAck dflt fl) evs) DeadlineExpired)
      as [more ->]. by rewrite E.
Qed.

(** ** Remote socket handles *)

Lemma of_list_singleton (x : string) : JSSet.of_list [x] = [x].
Proof.
  unfold JSSet.of_list. simpl. unfold JSSet.add.
  by rewrite has_false by apply not_elem_of_nil.
Qed.

Lemma constructor_result (ad : AdapterRef) (details : SocketDetails) (h : Heap) :
  let h1 := h ++ [HSet (JSSet.of_list (d_rooms details))] in
  let h2 := h1 ++ [HSet [d_id details]] in
  let h3 := h2 ++ [HSet []] in
  let h4 := h3 ++ [HFlags (mkFlags None None None None (Some true))] in
  let h5 := h4 ++ [HOperator ad (length h1) (length h2) (length h3)] in
  RemoteSocket.constructor ad details h
  = Some (length h5,
          h5 ++ [HRemoteSocket (d_id details) (d_handshake details) (length h)
                   (d_data details) (length h4)]).
Proof.
  intros h1 h2 h3 h4 h5.
  unfold RemoteSocket.constructor, mbind, HeapM_bind, new. simpl.
  by rewrite of_list_singleton.
Qed.

(** C9. The private operator built by the [RemoteSocket] constructor has
    rooms [{id}], an empty except set and only the [expectSingleResponse]
    flag, set. Consequently, when an ack-seeking [emit] on the handle is
    answered by exactly one response (the processes' counts add up to one),
    the ack callback is called once with [null] and that response itself,
    not an array holding it. *)
Theorem remote_socket_single_response (ad : AdapterRef) (details : SocketDetails)
    (h : Heap) :
  ∃ this op h',
    RemoteSocket.constructor ad details h = Some (this, h')
    ∧ RemoteSocket.getOperatorOf this h' = Some (op, h')
    ∧ operator_at h' op ad [d_id details] []
        (mkFlags None None None None (Some true))
    ∧ ∀ RESERVED_EVENTS dflt ev args k counts r evs,
        ev ∉ RESERVED_EVENTS →
        sumZ counts = 1%Z →
        evs ≡ₚ reports counts [r] →
        ∃ cs s0,
          RemoteSocket.emit RESERVED_EVENTS dflt ev (args ++ [VFun k]) this h'
          = Some (Return (mkEmit true cs (Some k) (Some s0)), h')
          ∧ invocations (run s0 evs) = [mkInvocation None (PValue r)]
          ∧ invocations (run s0 evs) ≠ [mkInvocation None (PResponses [r])].
Proof.
  pose proof (constructor_result ad details h) as Hnew. cbv zeta in Hnew.
  set (h1 := h ++ [HSet (JSSet.of_list (d_rooms details))]) in *.
  set (h2 := h1 ++ [HSet [d_id details]]) in *.
  set (h3 := h2 ++ [HSet []]) in *.
  set (h4 := h3 ++ [HFlags (mkFlags None None None None (Some true))]) in *.
  set (h5 := h4 ++ [HOperator ad (length h1) (length h2) (length h3)]) in *.
  set (h6 := h5 ++ _) in *.
  assert (Hthis : h6 !! length h5 = Some (HRemoteSocket (d_id details)
                    (d_handshake details) (length h) (d_data details) (length h4)))
    by apply lookup_last.
  assert (Hop : operator_at h6 (length h4) ad [d_id details] []
                  (mkFlags None None None None (Some true))).
  { exists (length h1), (length h2), (length h3). repeat split.
    - apply lookup_old, lookup_last.
    - do 4 apply lookup_old. apply lookup_last.
    - do 3 apply lookup_old. apply lookup_last.
    - do 2 apply lookup_old. apply lookup_last. }
  exists (length h5), (length h4), h6.
  split; [exact Hnew|]. split; [unfold RemoteSocket.getOperatorOf; by rewrite Hthis|].
  split; [exact Hop|].
  intros RESERVED_EVENTS dflt ev args k counts r evs Hres Hsum HP.
  set (fl := mkFlags None None None None (Some true)) in *.
  assert (Hlen : Z.of_nat (length [r]) = sumZ counts) by (simpl; lia).
  destruct (round_fires_once dflt fl counts [r] Hlen evs HP) as (Hinv & _).
  assert (Hr : clientResponses evs = [r]).
  { apply Permutation_singleton_r. rewrite <- (clientResponses_reports counts [r]).
    unfold clientResponses. by rewrite HP. }
  eexists _, (initialAck dflt fl). split.
  { unfold RemoteSocket.emit, mbind, HeapM_bind, RemoteSocket.getOperatorOf.
    rewrite Hthis. by apply (emit_with_ack _ _ _ _ _ _ _ _ _ _ _ Hop), has_false. }
  rewrite Hinv, Hr. split; [done|]. intros [=].
Qed.

(** * The statements on the sample deployment *)

Lemma broadcast_fast_path_witness :
  let opts := mkOpts ["lobby"] (Some []) None in
  let frames := Sample.codec (mkPacket EVENT (Some "/chat") [VStr "ev"]) in
  let topic := "/chat" +:+ SEPARATOR +:+ "lobby" in
  (JSSet.size ["lobby"] ≤ 1 ∧ JSSet.size (@nil string) = 0)
  ∧ PatchedAdapter.broadcast Sample.codec Sample.packet opts Sample.world
    = Return (PatchedAdapter.fastPublish Sample.codec Sample.packet opts Sample.world)
  ∧ ∃ writes,
      effects (PatchedAdapter.fastPublish Sample.codec Sample.packet opts Sample.world)
        = effects Sample.world ++ map (published topic) frames ++ writes
      ∧ publishCalls writes = 0
      ∧ publishCalls (map (published topic) frames ++ writes) = 2.
Proof.
  intros opts frames topic.
  assert (Hc : JSSet.size ["lobby"] ≤ 1 ∧ JSSet.size (@nil string) = 0)
    by (simpl; lia).
  split; [exact Hc|].
  destruct (broadcast_fast_path_iff Sample.codec Sample.packet ["lobby"] [] None
              Sample.world) as (_ & Hfast & _).
  exact (Hfast Hc).
Defined.

Lemma addAll_subscribes_and_logs_witness :
  effects (PatchedAdapter.addAll false "bob" ["bob"; "lobby"] Sample.world)
  = effects Sample.world
      ++ [Subscribe 2 "/chat"]
      ++ [Subscribe 2 ("/chat" +:+ SEPARATOR +:+ "bob");
          Subscribe 2 ("/chat" +:+ SEPARATOR +:+ "lobby")]
      ++ [LogConnection "/chat" "bob"]
  ∧ effects (PatchedAdapter.addAll false "alice" ["kitchen"] Sample.world)
    = effects Sample.world ++ [Subscribe 1 ("/chat" +:+ SEPARATOR +:+ "kitchen")].
Proof.
  split.
  - refine (proj1 (proj2 (addAll_subscribes_and_logs false "bob" ["bob"; "lobby"]
                            Sample.world Sample.bob _ _)) _);
      by vm_compute.
  - refine (proj2 (proj2 (addAll_subscribes_and_logs false "alice" ["kitchen"]
                            Sample.world Sample.alice _ _)) _);
      [by vm_compute..|].
    exists ["alice"; "lobby"]. by vm_compute.
Defined.

Lemma addAll_without_socket_witness :
  let w' := PatchedAdapter.addAll false "dave" ["lobby"] Sample.world in
  nsp_sockets (adapter Sample.world) !! "dave" = None
  ∧ sids (adapter Sample.world) !! "dave" = None
  ∧ adapter w' = BaseAdapter.addAll "dave" ["lobby"] (adapter Sample.world)
  ∧ is_Some (sids (adapter w') !! "dave")
  ∧ (∀ room, room ∈ ["lobby"] →
       "dave" ∈ BaseAdapter.members (adapter w') room
       ∧ ∃ s, sids (adapter w') !! "dave" = Some s ∧ room ∈ s)
  ∧ effects w' = effects Sample.world.
Proof.
  intros w'.
  assert (Hsock : nsp_sockets (adapter Sample.world) !! "dave" = None) by by vm_compute.
  split; [exact Hsock|]. split; [by vm_compute|].
  exact (addAll_without_socket false "dave" ["lobby"] Sample.world Hsock).
Defined.

Lemma del_unsubscribes_one_topic_witness :
  effects (PatchedAdapter.del false "alice" "lobby" Sample.world)
  = effects Sample.world ++ [Unsubscribe 1 ("/chat" +:+ SEPARATOR +:+ "lobby")]
  ∧ effects (PatchedAdapter.del false "carol" "carol" Sample.world)
    = effects Sample.world
  ∧ adapter (PatchedAdapter.del false "alice" "kitchen" Sample.world)
    = adapter Sample.world
  ∧ subscriptions 1 (effects (PatchedAdapter.del false "alice" "kitchen" Sample.world))
    = subscriptions 1 (effects Sample.world).
Proof.
  split; [|split].
  - refine (proj1 (proj2 (del_unsubscribes_one_topic false "alice" "lobby"
                            Sample.world)) Sample.alice _). by vm_compute.
  - refine (proj1 (proj2 (proj2 (del_unsubscribes_one_topic false "carol" "carol"
                                   Sample.world))) _). by vm_compute.
  - destruct (proj2 (proj2 (proj2 (del_unsubscribes_one_topic false "alice" "kitchen"
                                     Sample.world)))) as [Hsame Hsubs].
    + vm_compute. apply not_elem_of_nil.
    + intros s [= <-]. vm_compute. intros H.
      repeat (apply elem_of_cons in H as [H|H]; [discriminate|]).
      by apply elem_of_nil in H.
    + by vm_compute.
    + split; [exact Hsame|]. apply Hsubs. intros socket [= <-]. vm_compute. intros H.
      repeat (apply elem_of_cons in H as [H|H]; [discriminate|]).
      by apply elem_of_nil in H.
Defined.

Lemma sample_operator : operator_at Sample.heap 3 7 ["x"] [] noFlags.
Proof. exists 0, 1, 2. by repeat split. Qed.

Lemma chaining_never_mutates_witness :
  ∃ b h',
    chain (ChainTo (One "y")) 3 Sample.heap = Some (b, h')
    ∧ b ≠ 3
    ∧ Sample.heap !! b = None
    ∧ (∀ l o, Sample.heap !! l = Some o → h' !! l = Some o)
    ∧ operator_at h' 3 7 ["x"] [] noFlags
    ∧ operator_at h' b 7 (JSSet.add "y" ["x"]) [] noFlags.
Proof.
  exact (chaining_never_mutates (ChainTo (One "y")) Sample.heap 3 7 ["x"] [] noFlags
           sample_operator).
Defined.

Lemma emit_reserved_event_throws_witness :
  BroadcastOperator.emit Sample.reserved 0 "disconnect" [VStr "bye"] 3 Sample.heap
  = Some (Throw (Error (dquote +:+ "disconnect" +:+ dquote +:+ " is a reserved event name")),
          Sample.heap)
  ∧ ∃ r, BroadcastOperator.emit Sample.reserved 0 "ping" [VStr "hi"] 3 Sample.heap
         = Some (Return r, Sample.heap)
         ∧ returned r = true.
Proof.
  split.
  - refine (proj1 (emit_reserved_event_throws Sample.reserved 0 "disconnect"
                     [VStr "bye"] 3 Sample.heap) _).
    by apply (bool_decide_unpack _).
  - refine (proj2 (emit_reserved_event_throws Sample.reserved 0 "ping"
                     [VStr "hi"] 3 Sample.heap) _ 7 ["x"] [] noFlags sample_operator).
    by apply (bool_decide_unpack _).
Defined.

Lemma sample_round : Sample.round ≡ₚ reports [3; 2]%Z
  [VStr "a"; VStr "b"; VStr "c"; VStr "d"; VStr "e"].
Proof. by apply (bool_decide_unpack _). Qed.

Lemma ack_resolves_exactly_once_witness :
  let s0 := initialAck 0 noFlags in
  let final := run s0 Sample.round in
  (∃ cs, BroadcastOperator.emit Sample.reserved 0 "ping" ([VStr "hi"] ++ [VFun 9]) 3
           Sample.heap
         = Some (Return (mkEmit true cs (Some 9) (Some s0)), Sample.heap))
  ∧ invocations final
    = [mkInvocation None
         (PResponses [VStr "a"; VStr "b"; VStr "c"; VStr "d"; VStr "e"])]
  ∧ ∀ p rest, Sample.round = p ++ rest → rest ≠ [] →
      invocations (run s0 p) = [] ∧ complete (run s0 p) = false.
Proof.
  intros s0 final.
  destruct (ack_resolves_exactly_once Sample.reserved 0 "ping" [VStr "hi"] 9 3
              Sample.heap 7 ["x"] [] noFlags [3; 2]%Z
              [VStr "a"; VStr "b"; VStr "c"; VStr "d"; VStr "e"] Sample.round)
    as (Hemit & Hinv & _ & _ & _ & _ & _ & Hbefore & _).
  - exact sample_operator.
  - by apply (bool_decide_unpack _).
  - reflexivity.
  - exact sample_round.
  - split; [exact Hemit|]. split; [exact Hinv|exact Hbefore].
Defined.

Lemma sample_late_round (p : list AckEvent) :
  p `prefix_of` Sample.late_round → complete (run (initialAck 0 noFlags) p) = false.
Proof.
  intros [k Hk]. unfold Sample.late_round in Hk.
  repeat (destruct p as [|? p]; [reflexivity|]; injection Hk as <- Hk).
  destruct p; [reflexivity|]. by destruct k.
Qed.

Lemma ack_times_out_exactly_once_witness :
  let s0 := initialAck 0 noFlags in
  invocations (run s0 (Sample.late_round ++ [DeadlineExpired]))
  = [mkInvocation (Some (Error "operation has timed out"))
       (PResponses [VStr "a"; VStr "b"; VStr "c"; VStr "d"])]
  ∧ invocations (run s0 (Sample.late_round ++ DeadlineExpired :: [ClientResponded (VStr "e")]))
    = invocations (run s0 (Sample.late_round ++ [DeadlineExpired])).
Proof.
  intros s0.
  destruct (ack_times_out_exactly_once Sample.reserved 0 "ping" [VStr "hi"] 9 3
              Sample.heap 7 ["x"] [] noFlags Sample.late_round
              [ClientResponded (VStr "e")])
    as (_ & _ & Hinv & Hlate).
  - exact sample_operator.
  - by apply (bool_decide_unpack _).
  - by apply (bool_decide_unpack _).
  - exact sample_late_round.
  - split; [exact Hinv|exact Hlate].
Defined.

Lemma ack_emit_always_has_deadline_witness :
  ∃ s0 packet opts,
    BroadcastOperator.emit Sample.reserved 25 "ping" ([VStr "hi"] ++ [VFun 9]) 3 Sample.heap
    = Some (Return (mkEmit true
              [CallSetTimeout None; CallBroadcastWithAck packet opts; CallServerCount]
              (Some 9) (Some s0)), Sample.heap)
    ∧ timer s0 = TimerPending 25
    ∧ ∀ evs,
        (invocations (run s0 evs) = [] → ∃ d, timer (run s0 evs) = TimerPending d)
        ∧ invocations (run s0 (evs ++ [DeadlineExpired])) ≠ [].
Proof.
  refine (ack_emit_always_has_deadline Sample.reserved 25 "ping" [VStr "hi"] 9 3
            Sample.heap 7 ["x"] [] noFlags sample_operator _).
  by apply (bool_decide_unpack _).
Defined.

Lemma remote_socket_single_response_witness :
  ∃ this op h',
    RemoteSocket.constructor 7 Sample.details [] = Some (this, h')
    ∧ operator_at h' op 7 ["alice"] [] (mkFlags None None None None (Some true))
    ∧ ∃ cs s0,
        RemoteSocket.emit Sample.reserved 0 "ping" ([VStr "hi"] ++ [VFun 9]) this h'
        = Some (Return (mkEmit true cs (Some 9) (Some s0)), h')
        ∧ invocations
            (run s0 [ServerResponded 0; ClientResponded (VStr "pong");
                     ServerCountResolved 2; ServerResponded 1])
          = [mkInvocation None (PValue (VStr "pong"))].
Proof.
  destruct (remote_socket_single_response 7 Sample.details [])
    as (this & op & h' & Hnew & _ & Hop & Hemit).
  exists this, op, h'. split; [exact Hnew|]. split; [exact Hop|].
  destruct (Hemit Sample.reserved 0%Z "ping" [VStr "hi"] 9 [0; 1]%Z (VStr "pong")
              [ServerResponded 0; ClientResponded (VStr "pong");
               ServerCountResolved 2; ServerResponded 1])
    as (cs & s0 & Hrun & Hinv & _).
  - by apply (bool_decide_unpack _).
  - reflexivity.
  - by apply (bool_decide_unpack _).
  - exists cs, s0. split; [exact Hrun|exact Hinv].
Defined.

(** C2 (as stated) fails on an operator carrying [expectSingleResponse]:
    on [remoteSocket.timeout(1000).to("lobby")], two processes report 3 and 2
    clients and the five acknowledgments arrive, yet the callback receives
    the first response alone, not the array of the five. *)
Lemma ack_array_counterexample :
  ∃ this h cs s0,
    Sample.scoped [] = Some (this, h)
    ∧ BroadcastOperator.emit Sample.reserved 0 "ping" [VStr "hi"; VFun 9] this h
      = Some (Return (mkEmit true cs (Some 9) (Some s0)), h)
    ∧ Sample.round ≡ₚ reports [3; 2]%Z [VStr "a"; VStr "b"; VStr "c"; VStr "d"; VStr "e"]
    ∧ invocations (run s0 Sample.round) = [mkInvocation None (PValue (VStr "a"))]
    ∧ invocations (run s0 Sample.round)
      ≠ [mkInvocation None
           (PResponses [VStr "a"; VStr "b"; VStr "c"; VStr "d"; VStr "e"])].
Proof.
  eexists _, _, _, _. split; [by vm_compute|]. split; [by vm_compute|].
  split; [exact sample_round|]. split; [by vm_compute|]. vm_compute. intros [=].
Qed.

(** C7 (as stated) fails for a live connection: [alice] is not in
    [kitchen], yet [del] calls the transport's unsubscribe for the topic of
    that room, so the call is not a no-op; only the membership tables are
    left as they were. *)
Lemma del_non_member_counterexample :
  ("alice" ∉ BaseAdapter.members (adapter Sample.world) "kitchen")
  ∧ sids (adapter Sample.world) !! "alice" = Some ["alice"; "lobby"]
  ∧ adapter (PatchedAdapter.del false "alice" "kitchen" Sample.world)
    = adapter Sample.world
  ∧ effects (PatchedAdapter.del false "alice" "kitchen" Sample.world)
    = effects Sample.world ++ [Unsubscribe 1 ("/chat" +:+ SEPARATOR +:+ "kitchen")]
  ∧ PatchedAdapter.del false "alice" "kitchen" Sample.world ≠ Sample.world.
Proof.
  split; [vm_compute; apply not_elem_of_nil|]. split; [by vm_compute|].
  split; [by vm_compute|]. split; [by vm_compute|].
  intros H. apply (f_equal (λ w, length (effects w))) in H. vm_compute in H.
  discriminate.
Qed.

(** C3 (as stated) fails on the same operator: with four of the five
    acknowledgments in when the deadline expires, the callback receives the
    timeout error with [null], not with the four partial responses. The
    fifth response, arriving late, triggers no further call. *)
Lemma timeout_partial_counterexample :
  ∃ this h cs s0,
    Sample.scoped [] = Some (this, h)
    ∧ BroadcastOperator.emit Sample.reserved 0 "ping" [VStr "hi"; VFun 9] this h
      = Some (Return (mkEmit true cs (Some 9) (Some s0)), h)
    ∧ invocations (run s0 Sample.late_round) = []
    ∧ responses (run s0 Sample.late_round) = [VStr "a"; VStr "b"; VStr "c"; VStr "d"]
    ∧ invocations (run s0 (Sample.late_round ++ [DeadlineExpired]))
      = [mkInvocation (Some (Error "operation has timed out")) PNull]
    ∧ invocations (run s0 (Sample.late_round ++ [DeadlineExpired]))
      ≠ [mkInvocation (Some (Error "operation has timed out"))
           (PResponses [VStr "a"; VStr "b"; VStr "c"; VStr "d"])]
    ∧ invocations (run s0 (Sample.late_round
                            ++ [DeadlineExpired; ClientResponded (VStr "e")]))
      = [mkInvocation (Some (Error "operation has timed out")) PNull].
Proof.
  eexists _, _, _, _. split; [by vm_compute|]. split; [by vm_compute|].
  split; [by vm_compute|]. split; [by vm_compute|]. split; [by vm_compute|].
  split; [vm_compute; intros [=]|by vm_compute].
Qed.

(** Chaining immutability on the sample heap: after [a = operator.to("x")]
    and [b = a.to("y")], [a.rooms] is still [{x}]. *)
Example chaining_keeps_receiver_rooms :
  ∃ a b h,
    (a ← BroadcastOperator.to (One "x") 3; b ← BroadcastOperator.to (One "y") a;
     mret (a, b)) [HSet []; HSet []; HFlags noFlags; HOperator 7 0 1 2]
    = Some ((a, b), h)
    ∧ operator_at h a 7 ["x"] [] noFlags
    ∧ operator_at h b 7 ["x"; "y"] [] noFlags.
Proof.
  eexists _, _, _. split; [by vm_compute|].
  split; [exists 4, 1, 2|exists 6, 1, 2]; by repeat split.
Qed.


(** The fast path on the sample deployment: two frames, two publishes to the
    room topic, and no direct write since [alice] is on a websocket. *)
Example fast_publish_sample :
  PatchedAdapter.broadcast Sample.codec Sample.packet
    (mkOpts ["lobby"] (Some []) None) Sample.world
  = Return (mkWorld Sample.chat
      (effects Sample.world ++
         [Publish ("/chat" +:+ SEPARATOR +:+ "lobby") (TextFrame "42[ev]") false;
          Publish ("/chat" +:+ SEPARATOR +:+ "lobby") (BinaryFrame []) true])).
Proof. by vm_compute. Qed.

(** Two target rooms: the original broadcast, one direct write to [alice]
    and no publish. *)
Example generic_broadcast_sample :
  PatchedAdapter.broadcast Sample.codec Sample.packet
    (mkOpts ["lobby"; "alice"] (Some []) None) Sample.world
  = Return (mkWorld Sample.chat
      (effects Sample.world ++
         [WriteToEngine "alice" [TextFrame "2[ev]"; BinaryFrame []]
            (mkPacketOpts true None None)])).
Proof. by vm_compute. Qed.

(** Joining the same room twice keeps one membership entry and subscribes
    twice. *)
Example addAll_twice_sample :
  let w := PatchedAdapter.addAll false "alice" ["lobby"]
             (PatchedAdapter.addAll false "alice" ["lobby"] Sample.world) in
  BaseAdapter.members (adapter w) "lobby" = ["alice"]
  ∧ effects w = effects Sample.world ++
      [Subscribe 1 ("/chat" +:+ SEPARATOR +:+ "lobby");
       Subscribe 1 ("/chat" +:+ SEPARATOR +:+ "lobby")].
Proof. by vm_compute. Qed.


(** * Further properties of the sources *)

(** ** The patched adapter *)

(** X1. The [useWsLibrary] switch of [patchAdapter] changes nothing:
    [handleWsLibrary] and [unsubscribeWsLibrary] make the same calls as their
    uWebSockets counterparts, so [addAll] and [del] behave alike under both
    settings. *)
Theorem ws_library_switch_is_inert (id : SocketId) (rs : JSSet.t) (room : Room)
    (w : World) :
  PatchedAdapter.addAll true id rs w = PatchedAdapter.addAll false id rs w
  ∧ PatchedAdapter.del true id room w = PatchedAdapter.del false id room w.
Proof.
  split.
  - unfold PatchedAdapter.addAll. simpl.
    destruct (nsp_sockets (BaseAdapter.addAll id rs (adapter w)) !! id); [|done].
    by rewrite handleWsLibrary_effects.
  - unfold PatchedAdapter.del. simpl.
    by destruct (nsp_sockets (BaseAdapter.del id room (adapter w)) !! id).
Qed.

(** X2. With a selector that has no [except] set, [broadcast] throws a
    [TypeError] before sending anything when there is at most one target
    room, and is the original broadcast when there are two or more (the
    [&&] never reads [except] then). *)
Theorem broadcast_without_except_set (encode : Packet → list Frame)
    (packet : Packet) (rs : JSSet.t) (fl : option BroadcastFlags) (w : World) :
  (JSSet.size rs ≤ 1 →
     ∃ message, PatchedAdapter.broadcast encode packet (mkOpts rs None fl) w
                = Throw (TypeError message))
  ∧ (1 < JSSet.size rs →
     PatchedAdapter.broadcast encode packet (mkOpts rs None fl) w
     = Return (PatchedAdapter.baseBroadcast encode packet (mkOpts rs None fl) w)).
Proof.
  unfold PatchedAdapter.broadcast, PatchedAdapter.useFastPublish, JSSet.size. simpl.
  split; intros H.
  - case_bool_decide; [|done]. eexists. reflexivity.
  - case_bool_decide; [lia|reflexivity].
Qed.

Lemma broadcast_without_except_set_witness :
  (∃ message, PatchedAdapter.broadcast Sample.codec Sample.packet
                (mkOpts ["lobby"] None None) Sample.world
              = Throw (TypeError message))
  ∧ PatchedAdapter.broadcast Sample.codec Sample.packet
      (mkOpts ["lobby"; "alice"] None None) Sample.world
    = Return (PatchedAdapter.baseBroadcast Sample.codec Sample.packet
                (mkOpts ["lobby"; "alice"] None None) Sample.world).
Proof.
  split.
  - refine (proj1 (broadcast_without_except_set Sample.codec Sample.packet
                     ["lobby"] None Sample.world) _). simpl. lia.
  - refine (proj2 (broadcast_without_except_set Sample.codec Sample.packet
                     ["lobby"; "alice"] None Sample.world) _). simpl. lia.
Defined.

Lemma conditional_writes (frames : list Frame) (po : PacketOpts)
    (sockets : list Socket) (w : World) :
  foldl (λ w socket,
           if bool_decide (transport_name socket ≠ "websocket")
           then perform (WriteToEngine (sock_id socket) frames po) w
           else w) w sockets
  = mkWorld (adapter w)
      (effects w ++
         map (λ socket, WriteToEngine (sock_id socket) frames po)
           (filter (λ socket, transport_name socket ≠ "websocket") sockets)).
Proof.
  revert w. induction sockets as [|s sockets IH]; intros w; simpl.
  - rewrite app_nil_r. by destruct w.
  - rewrite IH. case_bool_decide.
    + rewrite filter_cons_True by done. simpl. by rewrite <- app_assoc.
    + rewrite filter_cons_False; [done|]. intros Hn. by apply Hn.
Qed.

(** X3. On the fast path the adapter's tables are left alone and, after the
    publishes, the direct writes are exactly one [writeToEngine] with all the
    encoded frames and the flags' [volatile] and [compress] for each matching
    connection whose transport is not a websocket, in matching order; a
    websocket connection is never written to directly. *)
Theorem fast_path_direct_writes (encode : Packet → list Frame) (packet : Packet)
    (rs ex : JSSet.t) (fl : option BroadcastFlags) (w : World) :
  JSSet.size rs ≤ 1 → JSSet.size ex = 0 →
  let opts := mkOpts rs (Some ex) fl in
  let frames := encode (mkPacket (ptype packet) (Some (nsp_name (adapter w))) (pdata packet)) in
  let topic :=
    match JSSet.first rs with
    | None => nsp_name (adapter w)
    | Some room => nsp_name (adapter w) +:+ SEPARATOR +:+ room
    end in
  let po := mkPacketOpts true (f_volatile (default noFlags fl))
              (f_compress (default noFlags fl)) in
  PatchedAdapter.broadcast encode packet opts w
  = Return (mkWorld (adapter w)
      (effects w ++ map (published topic) frames ++
         map (λ socket, WriteToEngine (sock_id socket) frames po)
           (filter (λ socket, transport_name socket ≠ "websocket")
              (BaseAdapter.matching (adapter w) opts)))).
Proof.
  intros Hrs Hex opts frames topic po.
  unfold PatchedAdapter.broadcast, PatchedAdapter.useFastPublish. simpl.
  rewrite !bool_decide_eq_true_2 by done. f_equal.
  unfold PatchedAdapter.fastPublish. rewrite publish_all.
  unfold BaseAdapter.apply. simpl adapter.
  rewrite (conditional_writes frames po). simpl. by rewrite <- app_assoc.
Qed.

Lemma fast_path_direct_writes_witness :
  PatchedAdapter.broadcast Sample.codec Sample.packet
    (mkOpts ["lobby"] (Some []) None) Sample.world
  = Return (mkWorld Sample.chat
      (effects Sample.world ++
         [Publish ("/chat" +:+ SEPARATOR +:+ "lobby") (TextFrame "42[ev]") false;
          Publish ("/chat" +:+ SEPARATOR +:+ "lobby") (BinaryFrame []) true] ++ [])).
Proof.
  refine (fast_path_direct_writes Sample.codec Sample.packet ["lobby"] [] None
            Sample.world _ _); simpl; lia.
Defined.

Lemma JSSet_elem_of_add (x y : string) (s : JSSet.t) :
  y ∈ JSSet.add x s ↔ y = x ∨ y ∈ s.
Proof.
  unfold JSSet.add, JSSet.has. case_bool_decide as Hx.
  - split; [by right|]. by intros [->|?].
  - rewrite elem_of_app, list_elem_of_singleton. tauto.
Qed.

Lemma JSSet_elem_of_delete (x y : string) (s : JSSet.t) :
  y ∈ JSSet.delete x s ↔ y ∈ s ∧ y ≠ x.
Proof. unfold JSSet.delete. rewrite list_elem_of_filter. tauto. Qed.

Lemma JSSet_elem_of_adds (y : string) (rs : list string) : ∀ s : JSSet.t,
  y ∈ foldl (λ s r, JSSet.add r s) s rs ↔ y ∈ s ∨ y ∈ rs.
Proof.
  induction rs as [|r rs IH]; intros s; simpl.
  - rewrite elem_of_nil. tauto.
  - rewrite IH, JSSet_elem_of_add, elem_of_cons. tauto.
Qed.

Lemma subscriptions_subscribes (ws : WebSocket) (es : list Effect)
    (topics : list string) (t : string) :
  t ∈ subscriptions ws (es ++ map (Subscribe ws) topics)
  ↔ t ∈ subscriptions ws es ∨ t ∈ topics.
Proof.
  induction topics as [|x topics IH] using rev_ind; simpl.
  - rewrite app_nil_r, elem_of_nil. tauto.
  - rewrite map_app, app_assoc. simpl. rewrite subscriptions_snoc.
    rewrite decide_True by done.
    rewrite JSSet_elem_of_add, IH, elem_of_app, list_elem_of_singleton. tauto.
Qed.

Lemma topic_inj (ns r r' : string) :
  ns +:+ SEPARATOR +:+ r = ns +:+ SEPARATOR +:+ r' → r = r'.
Proof.
  induction ns as [|c ns IH]; simpl; intros H.
  - by injection H.
  - injection H as H. by apply IH.
Qed.

Lemma base_joins_sids (id : SocketId) (rs : JSSet.t) : ∀ a,
  sids (foldl (BaseAdapter.join id) a rs) !! id
  = (λ s, foldl (λ s r, JSSet.add r s) s rs) <$> sids a !! id.
Proof.
  induction rs as [|r rs IH]; intros a; simpl.
  - by destruct (sids a !! id).
  - rewrite IH. unfold BaseAdapter.join. simpl. rewrite lookup_alter_eq.
    by destruct (sids a !! id).
Qed.

Lemma base_addAll_sids (id : SocketId) (rs : JSSet.t) (a : AdapterState) :
  sids (BaseAdapter.addAll id rs a) !! id
  = Some (foldl (λ s r, JSSet.add r s) (default JSSet.empty (sids a !! id)) rs).
Proof.
  unfold BaseAdapter.addAll. rewrite base_joins_sids.
  destruct (sids a !! id) as [s|] eqn:E; simpl.
  - by rewrite E.
  - by rewrite lookup_insert_eq.
Qed.

Lemma addAll_world (useWsLibrary : bool) (id : SocketId) (rs : JSSet.t)
    (w : World) (socket : Socket) :
  nsp_sockets (adapter w) !! id = Some socket →
  let isNew := negb (bool_decide (is_Some (sids (adapter w) !! id))) in
  let ns := nsp_name (adapter w) in
  let ws := transport_socket socket in
  PatchedAdapter.addAll useWsLibrary id rs w
  = mkWorld (BaseAdapter.addAll id rs (adapter w))
      (effects w ++ (if isNew then [Subscribe ws ns] else [])
         ++ map (Subscribe ws) (map (λ room, ns +:+ SEPARATOR +:+ room) rs)
         ++ (if isNew then [LogConnection ns (sock_id socket)] else [])).
Proof.
  intros Hsock isNew ns ws.
  destruct (base_addAll_frame id rs (adapter w)) as [Hname Hsocks].
  unfold PatchedAdapter.addAll. simpl. rewrite Hsocks, Hsock. fold isNew.
  rewrite handleWsLibrary_effects, handleUWebSockets_effects, Hname. fold ns ws.
  rewrite map_map.
  destruct useWsLibrary, isNew; unfold LoggingService.logConnection, perform; simpl;
    rewrite ?Hname, <- ?app_assoc, ?app_nil_r; reflexivity.
Qed.

Lemma del_world (useWsLibrary : bool) (id : SocketId) (room : Room)
    (w : World) (socket : Socket) :
  nsp_sockets (adapter w) !! id = Some socket →
  PatchedAdapter.del useWsLibrary id room w
  = mkWorld (BaseAdapter.del id room (adapter w))
      (effects w ++ [Unsubscribe (transport_socket socket)
                       (sock_nsp_name socket +:+ SEPARATOR +:+ room)]).
Proof.
  intros Hsock. unfold PatchedAdapter.del. simpl. rewrite Hsock.
  by destruct useWsLibrary.
Qed.

Lemma addAll_keeps_subscribedExactly (useWsLibrary : bool) (id : SocketId)
    (rs : JSSet.t) (w : World) (socket : Socket) :
  nsp_sockets (adapter w) !! id = Some socket →
  subscribedExactly w id (transport_socket socket) →
  subscribedExactly (PatchedAdapter.addAll useWsLibrary id rs w) id
    (transport_socket socket).
Proof.
  intros Hsock Hinv topic.
  rewrite (addAll_world useWsLibrary id rs w socket Hsock). simpl.
  destruct (base_addAll_frame id rs (adapter w)) as [-> _].
  rewrite base_addAll_sids.
  set (ns := nsp_name (adapter w)). set (ws := transport_socket socket).
  assert (Hsub : topic ∈ subscriptions ws
                   ((effects w ++
                     (if negb (bool_decide (is_Some (sids (adapter w) !! id)))
                      then [Subscribe ws ns] else []))
                    ++ map (Subscribe ws) (map (λ room, ns +:+ SEPARATOR +:+ room) rs))
                 ↔ (∃ s, Some (foldl (λ s r, JSSet.add r s)
                                 (default JSSet.empty (sids (adapter w) !! id)) rs)
                         = Some s
                         ∧ (topic = ns
                            ∨ ∃ room, room ∈ s ∧ topic = ns +:+ SEPARATOR +:+ room))).
  { rewrite subscriptions_subscribes, list_elem_of_fmap.
    specialize (Hinv topic). fold ns ws in Hinv.
    destruct (sids (adapter w) !! id) as [s|] eqn:E; simpl.
    - rewrite ?bool_decide_eq_true_2 by eauto. simpl. rewrite app_nil_r, Hinv.
      split.
      + intros [(s0 & [= <-] & [->|(room & Hr & ->)])|(room & -> & Hr)];
          (eexists; split; [done|]); [by left|right..];
          exists room; rewrite JSSet_elem_of_adds; auto.
      + intros (s' & [= <-] & [->|(room & Hr & ->)]).
        * left. exists s. auto.
        * apply JSSet_elem_of_adds in Hr as [Hr|Hr]; [left|right; eauto].
          exists s. split; [done|]. right. eauto.
    - rewrite ?bool_decide_eq_false_2 by (intros [? ?]; done). simpl.
      rewrite subscriptions_snoc, decide_True by done.
      rewrite JSSet_elem_of_add, Hinv. split.
      + intros [[->|(s0 & ? & _)]|(room & -> & Hr)]; try done;
          (eexists; split; [done|]); [by left|right].
        exists room. rewrite JSSet_elem_of_adds. auto.
      + intros (s' & [= <-] & [->|(room & Hr & ->)]); [by left; left|].
        apply JSSet_elem_of_adds in Hr as [Hr|Hr]; [by apply elem_of_nil in Hr|].
        right. eauto. }
  destruct (negb (bool_decide (is_Some (sids (adapter w) !! id)))) eqn:Enew.
  - rewrite !app_assoc, subscriptions_snoc. rewrite <- app_assoc in Hsub.
    rewrite <- !app_assoc. exact Hsub.
  - rewrite app_nil_r. simpl in Hsub. rewrite app_nil_r in Hsub. exact Hsub.
Qed.

Lemma del_keeps_subscribedExactly (useWsLibrary : bool) (id : SocketId)
    (room : Room) (w : World) (socket : Socket) :
  nsp_sockets (adapter w) !! id = Some socket →
  sock_nsp_name socket = nsp_name (adapter w) →
  subscribedExactly w id (transport_socket socket) →
  subscribedExactly (PatchedAdapter.del useWsLibrary id room w) id
    (transport_socket socket).
Proof.
  intros Hsock Hns Hinv topic.
  rewrite (del_world useWsLibrary id room w socket Hsock). simpl.
  rewrite subscriptions_snoc, decide_True by done.
  rewrite JSSet_elem_of_delete, Hns, lookup_alter_eq, (Hinv topic).
  destruct (sids (adapter w) !! id) as [s|]; simpl.
  - split.
    + intros [(s0 & [= <-] & [->|(r & Hr & ->)]) Hne];
        (eexists; split; [done|]); [by left|right].
      exists r. split; [|done]. apply JSSet_elem_of_delete. split; [done|].
      intros ->. done.
    + intros (s' & [= <-] & [->|(r & Hr & ->)]).
      * split; [exists s; auto|]. intros H. symmetry in H.
        by apply topic_not_namespace in H.
      * apply JSSet_elem_of_delete in Hr as [Hr Hne].
        split; [exists s; split; [done|]; right; eauto|].
        intros H. by apply topic_inj in H.
  - split; [by intros [(? & ? & _) _]|by intros (? & ? & _)].
Qed.

(** X4. For a connection whose socket is registered in the namespace, every
    sequence of [addAll] and [del] calls keeps the transport subscribed to
    exactly the namespace topic and the topics of the rooms recorded for the
    connection (and to nothing while it has no record), whatever rooms are
    joined twice or left without having been joined. *)
Theorem subscriptions_follow_membership (useWsLibrary : bool) (id : SocketId)
    (socket : Socket) (ops : list MembershipOp) (w : World) :
  nsp_sockets (adapter w) !! id = Some socket →
  sock_nsp_name socket = nsp_name (adapter w) →
  subscribedExactly w id (transport_socket socket) →
  subscribedExactly (foldl (applyOp useWsLibrary id) w ops) id
    (transport_socket socket).
Proof.
  revert w. induction ops as [|op ops IH]; intros w Hsock Hns Hinv; [done|].
  simpl. apply IH.
  - destruct op as [rs|room]; simpl.
    + rewrite (addAll_world useWsLibrary id rs w socket Hsock). simpl.
      by destruct (base_addAll_frame id rs (adapter w)) as [_ ->].
    + by rewrite (del_world useWsLibrary id room w socket Hsock).
  - destruct op as [rs|room]; simpl.
    + rewrite (addAll_world useWsLibrary id rs w socket Hsock). simpl.
      by destruct (base_addAll_frame id rs (adapter w)) as [-> _].
    + by rewrite (del_world useWsLibrary id room w socket Hsock).
  - destruct op as [rs|room]; simpl.
    + by apply addAll_keeps_subscribedExactly.
    + by apply del_keeps_subscribedExactly.
Qed.

Lemma subscriptions_follow_membership_witness :
  sids (adapter Sample.world) !! "bob" = None
  ∧ subscribedExactly
      (foldl (applyOp false "bob") Sample.world
         [OpAddAll ["bob"; "lobby"]; OpDel "kitchen"; OpAddAll ["lobby"]; OpDel "lobby"])
      "bob" 2.
Proof.
  split; [by vm_compute|].
  refine (subscriptions_follow_membership false "bob" Sample.bob _ Sample.world _ _ _).
  - by vm_compute.
  - reflexivity.
  - intros topic. split.
    + vm_compute. intros H. by apply elem_of_nil in H.
    + intros (s & Hs & _). vm_compute in Hs. discriminate.
Defined.

(** ** The aggregation state machine, for arbitrary arrivals *)

Lemma complete_false_servers (s : AckState) :
  expectedServerCount s ≠ actualServerCount s → complete s = false.
Proof.
  intros H. unfold complete. apply Z.eqb_neq in H. rewrite H.
  by rewrite andb_false_r.
Qed.

Lemma complete_false_clients (s : AckState) :
  Z.of_nat (length (responses s)) ≠ expectedClientCount s → complete s = false.
Proof.
  intros H. unfold complete. apply Z.eqb_neq in H. rewrite H.
  by rewrite andb_false_r.
Qed.

Lemma complete_true (s : AckState) :
  complete s = true →
  timedOut s = false
  ∧ expectedServerCount s = actualServerCount s
  ∧ Z.of_nat (length (responses s)) = expectedClientCount s.
Proof.
  unfold complete. rewrite !andb_true_iff, negb_true_iff, !Z.eqb_eq. tauto.
Qed.

Lemma timeouts_only_without_server_count (evs : list AckEvent) : ∀ s : AckState,
  serverCounts evs = [] →
  expectedServerCount s = (-1)%Z →
  (0 ≤ actualServerCount s)%Z →
  Forall (λ i, inv_err i = Some (Error "operation has timed out")) (invocations s) →
  Forall (λ i, inv_err i = Some (Error "operation has timed out"))
    (invocations (run s evs)).
Proof.
  induction evs as [|e evs IH]; intros s Hn HE HA Hall; [done|].
  change (run s (e :: evs)) with (run (step s e) evs).
  destruct e as [n|r|n|]; simpl in Hn; try discriminate; cbn [step].
  - unfold onServerResponded. rewrite checkCompleteness_quiet
      by (apply complete_false_servers; simpl; lia).
    apply IH; simpl; try done. lia.
  - unfold onClientResponded. rewrite checkCompleteness_quiet
      by (apply complete_false_servers; simpl; lia).
    by apply IH.
  - unfold onDeadline. destruct (timer s); apply IH; simpl; try done.
    apply Forall_app. split; [done|]. by apply Forall_singleton.
Qed.

(** X5. As long as [serverCount()] has not resolved the ack callback is never
    called with a result: whatever reports and responses arrive, and in
    whatever order, every call made is the timeout call. *)
Theorem no_result_before_server_count (dflt : Z) (fl : BroadcastFlags)
    (evs : list AckEvent) :
  serverCounts evs = [] →
  Forall (λ i, inv_err i = Some (Error "operation has timed out"))
    (invocations (run (initialAck dflt fl) evs)).
Proof.
  intros Hn. apply timeouts_only_without_server_count; simpl; try done.
Qed.

Lemma no_result_before_server_count_witness :
  serverCounts [ServerResponded 1; ClientResponded (VStr "a"); DeadlineExpired] = []
  ∧ Forall (λ i, inv_err i = Some (Error "operation has timed out"))
      (invocations (run (initialAck 0 noFlags)
                      [ServerResponded 1; ClientResponded (VStr "a"); DeadlineExpired])).
Proof.
  split; [reflexivity|].
  exact (no_result_before_server_count 0 noFlags
           [ServerResponded 1; ClientResponded (VStr "a"); DeadlineExpired] eq_refl).
Defined.

Lemma no_refire (evs : list AckEvent) : ∀ s : AckState,
  (∀ d, timer s ≠ TimerPending d) →
  serverCounts evs = [] →
  ((expectedServerCount s < actualServerCount s)%Z
   ∨ (expectedServerCount s = actualServerCount s
      ∧ (expectedClientCount s ≤ Z.of_nat (length (responses s)))%Z)) →
  invocations (run s evs) = invocations s.
Proof.
  induction evs as [|e evs IH]; intros s Ht Hn Hpast; [done|].
  change (run s (e :: evs)) with (run (step s e) evs).
  destruct e as [n|r|n|]; simpl in Hn; try discriminate; cbn [step].
  - unfold onServerResponded. rewrite checkCompleteness_quiet
      by (apply complete_false_servers; simpl; lia).
    rewrite IH; simpl; try done. left. lia.
  - unfold onClientResponded. rewrite checkCompleteness_quiet.
    + rewrite IH; simpl; try done. rewrite length_app. simpl. lia.
    + destruct Hpast as [Hlt|[Heq Hle]].
      * apply complete_false_servers. simpl. lia.
      * apply complete_false_clients. simpl. rewrite length_app. simpl. lia.
  - unfold onDeadline. destruct (timer s) eqn:E; [by destruct (Ht delay)|..];
      (apply IH; [intros d; by rewrite E|done..]).
Qed.

Lemma at_most_once_from (evs : list AckEvent) : ∀ s : AckState,
  invocations s = [] →
  (∃ d, timer s = TimerPending d) →
  timedOut s = false →
  (0 ≤ actualServerCount s)%Z →
  (expectedServerCount s = (-1)%Z ∧ length (serverCounts evs) ≤ 1)
  ∨ serverCounts evs = [] →
  length (invocations (run s evs)) ≤ 1.
Proof.
  induction evs as [|e evs IH]; intros s Hi [d Hd] Hto HA Hn.
  { simpl. rewrite Hi. simpl. lia. }
  change (run s (e :: evs)) with (run (step s e) evs).
  destruct (decide (e = DeadlineExpired)) as [->|Hne].
  - cbn [step]. unfold onDeadline. rewrite Hd, Hi. rewrite inert_run; simpl; [lia|done..].
  - rewrite step_update by done.
    assert (Hu : invocations (update s e) = [] ∧ timer (update s e) = TimerPending d
                 ∧ timedOut (update s e) = false ∧ (0 ≤ actualServerCount (update s e))%Z).
    { destruct e; simpl; repeat split; try done; lia. }
    destruct Hu as (Hui & Hut & Huo & HuA).
    assert (Hrest : complete (update s e) = true ∨ (∃ n, e = ServerCountResolved n)
                    → serverCounts evs = []).
    { intros Hc. destruct e as [n|r|n|]; simpl in Hn; try done.
      - destruct Hc as [Hc|[? ?]]; [|done]. apply complete_true in Hc as (_ & Hc & _).
        simpl in Hc. destruct Hn as [[HE _]|Hn]; [lia|done].
      - destruct Hc as [Hc|[? ?]]; [|done]. apply complete_true in Hc as (_ & Hc & _).
        simpl in Hc. destruct Hn as [[HE _]|Hn]; [lia|done].
      - destruct Hn as [[_ Hn]|Hn]; [|done]. simpl in Hn.
        destruct (serverCounts evs); [done|simpl in Hn; lia]. }
    destruct (complete (update s e)) eqn:Hc.
    + destruct (checkCompleteness_fires _ Hc) as [Hinv Htim].
      destruct (checkCompleteness_data (update s e)) as (_ & _ & Hr & HE' & HA' & HX').
      apply complete_true in Hc as (_ & Hc1 & Hc2).
      rewrite no_refire.
      * rewrite Hinv, Hui. simpl. lia.
      * intros d'. by rewrite Htim, Hut.
      * apply Hrest. by left.
      * right. rewrite HE', HA', HX', Hr. split; [done|lia].
    + rewrite checkCompleteness_quiet by done. apply IH; try done; [eauto|].
      destruct e as [n|r|n|]; simpl in *; try done.
      right. apply Hrest. right. eauto.
Qed.

(** X6. The ack callback of one [emit] is called at most once, whatever
    arrives and in whatever order (reports of more or fewer processes than
    counted, duplicate or missing responses, an expiry of the deadline at any
    point), given that [serverCount()] resolves at most once. *)
Theorem ack_callback_at_most_once (dflt : Z) (fl : BroadcastFlags)
    (evs : list AckEvent) :
  length (serverCounts evs) ≤ 1 →
  length (invocations (run (initialAck dflt fl) evs)) ≤ 1.
Proof.
  intros Hn. apply at_most_once_from; simpl; try done; eauto.
Qed.

Lemma ack_callback_at_most_once_witness :
  length (serverCounts
            [ServerCountResolved 1; ServerResponded 0; ClientResponded (VStr "a");
             ServerResponded 1; DeadlineExpired; ClientResponded (VStr "b")]) ≤ 1
  ∧ length (invocations
              (run (initialAck 0 noFlags)
                 [ServerCountResolved 1; ServerResponded 0; ClientResponded (VStr "a");
                  ServerResponded 1; DeadlineExpired; ClientResponded (VStr "b")])) ≤ 1.
Proof.
  assert (H : length (serverCounts
            [ServerCountResolved 1; ServerResponded 0; ClientResponded (VStr "a");
             ServerResponded 1; DeadlineExpired; ClientResponded (VStr "b")]) ≤ 1)
    by (simpl; lia).
  split; [exact H|].
  exact (ack_callback_at_most_once 0 noFlags _ H).
Defined.

(** ** [emitWithAck] *)

Lemma emit_on (RESERVED_EVENTS : JSSet.t) (dflt : Z) (ev : string)
    (args : list value) (this : loc) (h : Heap) ad rs ex fl :
  operator_at h this ad rs ex fl →
  BroadcastOperator.emit RESERVED_EVENTS dflt ev args this h
  = Some (emitOn RESERVED_EVENTS dflt ev args (mkOpts rs (Some ex) (Some fl)), h).
Proof.
  intros Hop. unfold BroadcastOperator.emit, emitOn.
  destruct (JSSet.has ev RESERVED_EVENTS); [done|].
  unfold mbind, HeapM_bind. rewrite (selector_result _ _ _ _ _ _ Hop).
  by destruct (last (VStr ev :: args)) as [[]|].
Qed.

(** X7. [emitWithAck] never throws: with a reserved event name the promise
    is rejected with the error and nothing is sent; otherwise the promise is
    pending and the emit is acknowledgment-seeking whatever the arguments
    (none, or ending with a function of the caller's): the timer is started,
    the packet carries the event name and the caller's arguments without the
    appended callback, and the server count is queried. *)
Theorem emitWithAck_never_throws (RESERVED_EVENTS : JSSet.t) (dflt : Z)
    (ev : string) (args : list value) (k : nat) (this : loc) (h : Heap) :
  (ev ∈ RESERVED_EVENTS →
     emitWithAck RESERVED_EVENTS dflt ev args k this h
     = Some (mkAckPromise
               (PromiseRejected
                  (Error (dquote +:+ ev +:+ dquote +:+ " is a reserved event name")) None)
               None, h))
  ∧ (ev ∉ RESERVED_EVENTS →
     ∀ ad rs ex fl, operator_at h this ad rs ex fl →
       emitWithAck RESERVED_EVENTS dflt ev args k this h
       = Some (mkAckPromise PromisePending
                 (Some (mkEmit true
                    [CallSetTimeout (f_timeout fl);
                     CallBroadcastWithAck (mkPacket EVENT None (VStr ev :: args))
                       (mkOpts rs (Some ex) (Some fl));
                     CallServerCount]
                    (Some k) (Some (initialAck dflt fl)))), h)).
Proof.
  unfold emitWithAck, mbind, HeapM_bind. split.
  - intros Hin. rewrite emit_reserved; [done|].
    unfold JSSet.has. by apply bool_decide_eq_true_2.
  - intros Hnin ad rs ex fl Hop.
    by rewrite (emit_with_ack _ _ _ _ _ _ _ ad rs ex fl Hop (has_false _ _ Hnin)).
Qed.

Lemma emitWithAck_never_throws_witness :
  emitWithAck Sample.reserved 0 "connect" [] 9 3 Sample.heap
  = Some (mkAckPromise
            (PromiseRejected
               (Error (dquote +:+ "connect" +:+ dquote +:+ " is a reserved event name")) None)
            None, Sample.heap)
  ∧ emitWithAck Sample.reserved 0 "ping" [] 9 3 Sample.heap
    = Some (mkAckPromise PromisePending
              (Some (mkEmit true
                 [CallSetTimeout None;
                  CallBroadcastWithAck (mkPacket EVENT None [VStr "ping"])
                    (mkOpts ["x"] (Some []) (Some noFlags));
                  CallServerCount]
                 (Some 9) (Some (initialAck 0 noFlags)))), Sample.heap).
Proof.
  split.
  - refine (proj1 (emitWithAck_never_throws Sample.reserved 0 "connect" [] 9 3
                     Sample.heap) _).
    by apply (bool_decide_unpack _).
  - refine (proj2 (emitWithAck_never_throws Sample.reserved 0 "ping" [] 9 3
                     Sample.heap) _ 7 ["x"] [] noFlags sample_operator).
    by apply (bool_decide_unpack _).
Defined.

Lemma timeout_run (dflt : Z) (fl : BroadcastFlags) (evs late : list AckEvent) :
  DeadlineExpired ∉ evs →
  (∀ p, p `prefix_of` evs → complete (run (initialAck dflt fl) p) = false) →
  invocations (run (initialAck dflt fl) (evs ++ DeadlineExpired :: late))
  = [timedOutWith fl (clientResponses evs)].
Proof.
  intros Hnd Hq. set (s0 := initialAck dflt fl).
  destruct (quiet_run evs s0 Hnd Hq) as [Hi Ht].
  destruct (run_data evs s0 Hnd) as (Hf & _ & Hr & _).
  rewrite run_app. change (run (run s0 evs) (DeadlineExpired :: late))
    with (run (onDeadline (run s0 evs)) late).
  unfold onDeadline. rewrite Ht. simpl timer. cbn iota.
  rewrite inert_run; simpl; [|done..]. by rewrite Hi, Hf, Hr.
Qed.

Lemma run_responses (evs : list AckEvent) : ∀ s : AckState,
  responses (run s evs) = responses s ++ clientResponses evs.
Proof.
  induction evs as [|e evs IH]; intros s; [by rewrite app_nil_r|].
  change (run s (e :: evs)) with (run (step s e) evs). rewrite IH.
  destruct (decide (e = DeadlineExpired)) as [->|Hne].
  - cbn [step]. unfold onDeadline. by destruct (timer s).
  - rewrite step_update by done.
    destruct (checkCompleteness_data (update s e)) as (_ & _ & -> & _).
    destruct e; simpl; try done. by rewrite <- app_assoc.
Qed.

(** X8. The promise of [emitWithAck] is fulfilled by a complete round, in any
    interleaving, with the [responses] array, which then holds the responses
    in arrival order (with the first response alone under
    [expectSingleResponse]). When the deadline expires before completeness it
    is rejected with the timeout error, and nothing arriving later settles it
    again; the error's [responses] property is [null] under
    [expectSingleResponse] and otherwise the [responses] array itself, which
    holds the responses collected before the deadline followed by every
    response that arrives after it. *)
Theorem emitWithAck_settles (RESERVED_EVENTS : JSSet.t) (dflt : Z)
    (ev : string) (args : list value) (k : nat) (this : loc) (h : Heap)
    (ad : AdapterRef) (rsel ex : JSSet.t) (fl : BroadcastFlags) :
  operator_at h this ad rsel ex fl →
  ev ∉ RESERVED_EVENTS →
  ∃ p r s0,
    emitWithAck RESERVED_EVENTS dflt ev args k this h = Some (p, h)
    ∧ emitted p = Some r ∧ pending r = Some s0
    ∧ (∀ counts rs evs,
         Z.of_nat (length rs) = sumZ counts →
         evs ≡ₚ reports counts rs →
         promiseAfter p (invocations (run s0 evs))
         = PromiseFulfilled
             (if truthy (f_expectSingleResponse fl)
              then HeldValue (default VUndefined (clientResponses evs !! 0))
              else HeldArray)
         ∧ contents HeldArray (run s0 evs) = PResponses (clientResponses evs))
    ∧ (∀ evs late,
         DeadlineExpired ∉ evs →
         (∀ q, q `prefix_of` evs → complete (run s0 q) = false) →
         promiseAfter p (invocations (run s0 (evs ++ DeadlineExpired :: late)))
         = PromiseRejected (Error "operation has timed out")
             (Some (if truthy (f_expectSingleResponse fl) then HeldNull else HeldArray))
         ∧ contents HeldArray (run s0 (evs ++ [DeadlineExpired]))
           = PResponses (clientResponses evs)
         ∧ contents HeldArray (run s0 (evs ++ DeadlineExpired :: late))
           = PResponses (clientResponses evs ++ clientResponses late)).
Proof.
  intros Hop Hres. eexists _, _, (initialAck dflt fl). split.
  { unfold emitWithAck, mbind, HeapM_bind.
    by rewrite (emit_with_ack _ _ _ _ _ _ _ ad rsel ex fl Hop (has_false _ _ Hres)). }
  split; [done|]. split; [done|]. split.
  - intros counts rs evs Hlen HP.
    destruct (round_fires_once dflt fl counts rs Hlen evs HP) as (-> & _).
    split; [unfold promiseAfter, resolved; simpl;
            by destruct (truthy (f_expectSingleResponse fl))|].
    simpl. by rewrite run_responses.
  - intros evs late Hnd Hq. rewrite timeout_run by done.
    split; [unfold promiseAfter, timedOutWith; simpl;
            by destruct (truthy (f_expectSingleResponse fl))|].
    simpl. rewrite !run_responses. simpl.
    unfold clientResponses. rewrite !omap_app. simpl. by rewrite app_nil_r.
Qed.

Lemma emitWithAck_settles_witness :
  ∃ p r s0,
    emitWithAck Sample.reserved 0 "ping" [VStr "hi"] 9 3 Sample.heap
    = Some (p, Sample.heap)
    ∧ emitted p = Some r ∧ pending r = Some s0
    ∧ (promiseAfter p (invocations (run s0 Sample.round)) = PromiseFulfilled HeldArray
       ∧ contents HeldArray (run s0 Sample.round)
         = PResponses [VStr "a"; VStr "b"; VStr "c"; VStr "d"; VStr "e"])
    ∧ (promiseAfter p
         (invocations (run s0 (Sample.late_round
                                 ++ DeadlineExpired :: [ClientResponded (VStr "e")])))
       = PromiseRejected (Error "operation has timed out") (Some HeldArray)
       ∧ contents HeldArray (run s0 (Sample.late_round ++ [DeadlineExpired]))
         = PResponses [VStr "a"; VStr "b"; VStr "c"; VStr "d"]
       ∧ contents HeldArray
           (run s0 (Sample.late_round
                      ++ DeadlineExpired :: [ClientResponded (VStr "e")]))
         = PResponses [VStr "a"; VStr "b"; VStr "c"; VStr "d"; VStr "e"]).
Proof.
  destruct (emitWithAck_settles Sample.reserved 0 "ping" [VStr "hi"] 9 3 Sample.heap
              7 ["x"] [] noFlags sample_operator)
    as (p & r & s0 & Hrun & Hr & Hs & Hok & Hko).
  - by apply (bool_decide_unpack _).
  - exists p, r, s0. split; [exact Hrun|]. split; [exact Hr|]. split; [exact Hs|].
    assert (E : s0 = initialAck 0 noFlags).
    { vm_compute in Hrun. injection Hrun as <-. simpl in Hr. injection Hr as <-.
      simpl in Hs. by injection Hs as <-. }
    split.
    + refine (Hok [3; 2]%Z [VStr "a"; VStr "b"; VStr "c"; VStr "d"; VStr "e"]
                Sample.round eq_refl sample_round).
    + refine (Hko Sample.late_round [ClientResponded (VStr "e")] _ _).
      * by apply (bool_decide_unpack _).
      * rewrite E. exact sample_late_round.
Defined.

(** ** Fluent chains *)

Lemma chain_step (c : Chain) (h : Heap) (a : loc) (ad : AdapterRef)
    (rs ex : JSSet.t) (fl : BroadcastFlags) :
  operator_at h a ad rs ex fl →
  ∃ b k, chain c a h = Some (b, h ++ k)
         ∧ operator_at (h ++ k) b ad (chainedRooms c rs) (chainedExcept c ex)
             (chainedFlags c fl).
Proof.
  intros (r & e & f & Hthis & Hr & He & Hf).
  assert (Hat : ∀ o1 o2, (h ++ [o1; o2]) !! S (length h) = Some o2).
  { intros o1 o2. change (h ++ [o1; o2]) with (h ++ [o1] ++ [o2]).
    rewrite app_assoc. replace (S (length h)) with (length (h ++ [o1]))
      by (rewrite length_app; simpl; lia). apply lookup_last. }
  assert (Hmid : ∀ o1 o2, (h ++ [o1; o2]) !! length h = Some o1).
  { intros o1 o2. by apply list_lookup_middle. }
  assert (Hto : ∀ room, BroadcastOperator.to room a h
                        = Some (S (length h),
                                h ++ [HSet (addRooms room rs); HOperator ad (length h) e f])).
  { intros room. rewrite (to_result room h a ad r e f rs Hthis Hr).
    by rewrite <- app_assoc. }
  assert (Hflags : ∀ extra, BroadcastOperator.withFlags extra a h
                            = Some (S (length h),
                                    h ++ [HFlags (assigned fl extra);
                                          HOperator ad r e (length h)])).
  { intros extra. rewrite (withFlags_result extra h a ad r e f fl Hthis Hf).
    by rewrite <- app_assoc. }
  destruct c as [room|room|room|b| | |t]; simpl chain;
    try (unfold BroadcastOperator.in_; rewrite Hto; eexists _, _; split; [done|];
         exists (length h), e, f; rewrite Hat, Hmid;
         split; [done|]; split; [done|]; split; by apply lookup_old);
    try (unfold BroadcastOperator.compress, BroadcastOperator.volatile,
           BroadcastOperator.local, BroadcastOperator.timeout;
         rewrite Hflags; eexists _, _; split; [done|];
         exists r, e, (length h); rewrite Hat, Hmid;
         split; [done|]; split; [by apply lookup_old|];
         split; [by apply lookup_old|done]).
  rewrite (except_result room h a ad r e f ex Hthis He), <- app_assoc.
  eexists _, _. split; [done|]. exists r, (length h), f. simpl. rewrite Hat, Hmid.
  split; [done|]. split; [by apply lookup_old|]. split; [done|by apply lookup_old].
Qed.

Lemma chains_result (cs : list Chain) : ∀ (h : Heap) (a : loc) (ad : AdapterRef)
    (rs ex : JSSet.t) (fl : BroadcastFlags),
  operator_at h a ad rs ex fl →
  ∃ b k, chains cs a h = Some (b, h ++ k)
         ∧ operator_at (h ++ k) b ad
             (foldl (λ s c, chainedRooms c s) rs cs)
             (foldl (λ s c, chainedExcept c s) ex cs)
             (foldl (λ f c, chainedFlags c f) fl cs).
Proof.
  induction cs as [|c cs IH]; intros h a ad rs ex fl Hop; simpl.
  - exists a, []. by rewrite app_nil_r.
  - destruct (chain_step c h a ad rs ex fl Hop) as (b1 & k1 & Hrun1 & Hop1).
    destruct (IH _ _ _ _ _ _ Hop1) as (b & k & Hrun & Hopb).
    exists b, (k1 ++ k). unfold mbind, HeapM_bind. rewrite Hrun1, Hrun.
    by rewrite <- app_assoc in *.
Qed.

(** X9. A fluent chain of any length, mixing [to], [in], [except],
    [compress], [volatile], [local] and [timeout], only adds objects to the
    heap: the operator it returns holds the rooms, exceptions and flags
    accumulated call by call from the receiver's, and the receiver (like any
    operator created on the way) keeps its own. *)
Theorem fluent_chain_accumulates (cs : list Chain) (h : Heap) (a : loc)
    (ad : AdapterRef) (rs ex : JSSet.t) (fl : BroadcastFlags) :
  operator_at h a ad rs ex fl →
  ∃ b k, chains cs a h = Some (b, h ++ k)
         ∧ operator_at (h ++ k) b ad
             (foldl (λ s c, chainedRooms c s) rs cs)
             (foldl (λ s c, chainedExcept c s) ex cs)
             (foldl (λ f c, chainedFlags c f) fl cs)
         ∧ operator_at (h ++ k) a ad rs ex fl.
Proof.
  intros Hop. destruct (chains_result cs h a ad rs ex fl Hop) as (b & k & Hrun & Hb).
  exists b, k. split; [done|]. split; [done|]. by apply operator_at_old.
Qed.

Lemma fluent_chain_accumulates_witness :
  ∃ b k,
    chains [ChainTo (One "y"); ChainVolatile; ChainExcept (Many ["z"; "y"]);
            ChainTimeout 500; ChainTo (One "x")] 3 Sample.heap
    = Some (b, Sample.heap ++ k)
    ∧ operator_at (Sample.heap ++ k) b 7 ["x"; "y"] ["z"; "y"]
        (mkFlags (Some true) None None (Some 500%Z) None)
    ∧ operator_at (Sample.heap ++ k) 3 7 ["x"] [] noFlags.
Proof.
  exact (fluent_chain_accumulates
           [ChainTo (One "y"); ChainVolatile; ChainExcept (Many ["z"; "y"]);
            ChainTimeout 500; ChainTo (One "x")]
           Sample.heap 3 7 ["x"] [] noFlags sample_operator).
Defined.

Lemma successive_to_rooms (rooms : list Room) : ∀ (rs ex : JSSet.t) (fl : BroadcastFlags),
  foldl (λ s c, chainedRooms c s) rs (map (λ r, ChainTo (One r)) rooms)
  = foldl (λ s r, JSSet.add r s) rs rooms
  ∧ foldl (λ s c, chainedExcept c s) ex (map (λ r, ChainTo (One r)) rooms) = ex
  ∧ foldl (λ f c, chainedFlags c f) fl (map (λ r, ChainTo (One r)) rooms) = fl.
Proof.
  induction rooms as [|r rooms IH]; intros rs ex fl; simpl; [done|].
  destruct (IH (JSSet.add r rs) ex fl) as (-> & -> & ->). done.
Qed.

(** X10. [to] with an array of rooms gives an operator with the same rooms, in
    the same order, the same exceptions and the same flags as calling [to]
    for each room in turn; those rooms are the receiver's and the given
    ones, each once. *)
Theorem to_array_is_successive_to (rooms : list Room) (h : Heap) (a : loc)
    (ad : AdapterRef) (rs ex : JSSet.t) (fl : BroadcastFlags) :
  operator_at h a ad rs ex fl →
  ∃ b1 k1 b2 k2 rs',
    chain (ChainTo (Many rooms)) a h = Some (b1, h ++ k1)
    ∧ chains (map (λ r, ChainTo (One r)) rooms) a h = Some (b2, h ++ k2)
    ∧ operator_at (h ++ k1) b1 ad rs' ex fl
    ∧ operator_at (h ++ k2) b2 ad rs' ex fl
    ∧ (∀ r, r ∈ rs' ↔ r ∈ rs ∨ r ∈ rooms)
    ∧ (NoDup rs → NoDup rs').
Proof.
  intros Hop.
  destruct (chain_step (ChainTo (Many rooms)) h a ad rs ex fl Hop)
    as (b1 & k1 & Hrun1 & Hop1).
  destruct (chains_result (map (λ r, ChainTo (One r)) rooms) h a ad rs ex fl Hop)
    as (b2 & k2 & Hrun2 & Hop2).
  destruct (successive_to_rooms rooms rs ex fl) as (Hrs & Hex & Hfl).
  rewrite Hrs, Hex, Hfl in Hop2. simpl in Hop1.
  exists b1, k1, b2, k2, (foldl (λ s r, JSSet.add r s) rs rooms).
  do 4 (split; [done|]). split; [intros r; apply JSSet_elem_of_adds|].
  clear. revert rs. induction rooms as [|r rooms IH]; intros rs Hnd; simpl; [done|].
  apply IH. unfold JSSet.add, JSSet.has. case_bool_decide; [done|].
  apply NoDup_app. split; [done|]. split; [|apply NoDup_singleton].
  intros x Hx ->%list_elem_of_singleton. done.
Qed.

Lemma to_array_is_successive_to_witness :
  ∃ b1 k1 b2 k2 rs',
    chain (ChainTo (Many ["y"; "x"; "y"])) 3 Sample.heap = Some (b1, Sample.heap ++ k1)
    ∧ chains (map (λ r, ChainTo (One r)) ["y"; "x"; "y"]) 3 Sample.heap
      = Some (b2, Sample.heap ++ k2)
    ∧ operator_at (Sample.heap ++ k1) b1 7 rs' [] noFlags
    ∧ operator_at (Sample.heap ++ k2) b2 7 rs' [] noFlags
    ∧ (∀ r, r ∈ rs' ↔ r ∈ ["x"] ∨ r ∈ ["y"; "x"; "y"])
    ∧ (NoDup ["x"] → NoDup rs').
Proof.
  exact (to_array_is_successive_to ["y"; "x"; "y"] Sample.heap 3 7 ["x"] [] noFlags
           sample_operator).
Defined.

(** X11. After [timeout(t)], an acknowledgment-seeking emit starts its
    deadline timer with [t], whatever the flags were before and whatever the
    system default is. *)
Theorem timeout_sets_the_deadline (RESERVED_EVENTS : JSSet.t) (dflt t : Z)
    (ev : string) (args : list value) (k : nat) (h : Heap) (a : loc)
    (ad : AdapterRef) (rs ex : JSSet.t) (fl : BroadcastFlags) :
  operator_at h a ad rs ex fl →
  ev ∉ RESERVED_EVENTS →
  ∃ b h' packet opts s0,
    chain (ChainTimeout t) a h = Some (b, h')
    ∧ BroadcastOperator.emit RESERVED_EVENTS dflt ev (args ++ [VFun k]) b h'
      = Some (Return (mkEmit true
                [CallSetTimeout (Some t); CallBroadcastWithAck packet opts; CallServerCount]
                (Some k) (Some s0)), h')
    ∧ timer s0 = TimerPending t.
Proof.
  intros Hop Hres.
  destruct (chain_step (ChainTimeout t) h a ad rs ex fl Hop) as (b & k' & Hrun & Hb).
  eexists b, _, _, _, _. split; [exact Hrun|].
  rewrite (emit_with_ack _ _ _ _ _ _ _ _ _ _ _ Hb (has_false _ _ Hres)).
  split; reflexivity.
Qed.

Lemma timeout_sets_the_deadline_witness :
  ∃ b h' packet opts s0,
    chain (ChainTimeout 1000) 3 Sample.heap = Some (b, h')
    ∧ BroadcastOperator.emit Sample.reserved 25 "ping" ([VStr "hi"] ++ [VFun 9]) b h'
      = Some (Return (mkEmit true
                [CallSetTimeout (Some 1000%Z); CallBroadcastWithAck packet opts;
                 CallServerCount]
                (Some 9) (Some s0)), h')
    ∧ timer s0 = TimerPending 1000.
Proof.
  refine (timeout_sets_the_deadline Sample.reserved 25 1000 "ping" [VStr "hi"] 9
            Sample.heap 3 7 ["x"] [] noFlags sample_operator _).
  by apply (bool_decide_unpack _).
Defined.

(** X12. From emit to the wire: on an operator without rooms or exceptions,
    [to(room).emit(ev, ...args)] without a callback makes one
    [adapter.broadcast] call and starts no timer; that call, on the patched
    adapter, publishes every frame of the packet [[ev, ...args]] once to the
    topic of that room and writes directly only to the matching connections
    that are not on a websocket. *)
Theorem emit_to_one_room_publishes (RESERVED_EVENTS : JSSet.t) (dflt : Z)
    (encode : Packet → list Frame) (ev : string) (args : list value)
    (room : Room) (h : Heap) (a : loc) (ad : AdapterRef) (fl : BroadcastFlags)
    (w : World) :
  operator_at h a ad [] [] fl →
  ev ∉ RESERVED_EVENTS →
  (∀ f, last (VStr ev :: args) ≠ Some (VFun f)) →
  let packet := mkPacket EVENT None (VStr ev :: args) in
  let opts := mkOpts [room] (Some []) (Some fl) in
  ∃ b h',
    chain (ChainTo (One room)) a h = Some (b, h')
    ∧ BroadcastOperator.emit RESERVED_EVENTS dflt ev args b h'
      = Some (Return (mkEmit true [CallBroadcast packet opts] None None), h')
    ∧ let frames := encode (mkPacket EVENT (Some (nsp_name (adapter w))) (VStr ev :: args)) in
      PatchedAdapter.broadcast encode packet opts w
      = Return (mkWorld (adapter w)
          (effects w
             ++ map (published (nsp_name (adapter w) +:+ SEPARATOR +:+ room)) frames
             ++ map (λ socket, WriteToEngine (sock_id socket) frames
                                 (mkPacketOpts true (f_volatile fl) (f_compress fl)))
                  (filter (λ socket, transport_name socket ≠ "websocket")
                     (BaseAdapter.matching (adapter w) opts)))).
Proof.
  intros Hop Hres Hlast packet opts.
  destruct (chain_step (ChainTo (One room)) h a ad [] [] fl Hop) as (b & k & Hrun & Hb).
  simpl in Hb.
  assert (Hadd : JSSet.add room [] = [room]).
  { unfold JSSet.add. by rewrite has_false by apply not_elem_of_nil. }
  rewrite Hadd in Hb.
  eexists b, _. split; [exact Hrun|]. split.
  - rewrite (emit_on _ _ _ _ _ _ _ _ _ _ Hb). unfold emitOn.
    rewrite (has_false _ _ Hres).
    destruct (last (VStr ev :: args)) as [[| | | | |f]|] eqn:E; try reflexivity.
    by destruct (Hlast f).
  - intros frames.
    unfold PatchedAdapter.broadcast, PatchedAdapter.useFastPublish. simpl.
    f_equal. unfold PatchedAdapter.fastPublish. rewrite publish_all.
    unfold BaseAdapter.apply. simpl adapter.
    rewrite (conditional_writes frames
               (mkPacketOpts true (f_volatile fl) (f_compress fl))).
    simpl. by rewrite <- app_assoc.
Qed.

Lemma emit_to_one_room_publishes_witness :
  let packet := mkPacket EVENT None [VStr "ev"] in
  let opts := mkOpts ["lobby"] (Some []) (Some noFlags) in
  ∃ b h',
    chain (ChainTo (One "lobby")) 3 [HSet []; HSet []; HFlags noFlags; HOperator 7 0 1 2]
    = Some (b, h')
    ∧ BroadcastOperator.emit Sample.reserved 0 "ev" [] b h'
      = Some (Return (mkEmit true [CallBroadcast packet opts] None None), h')
    ∧ PatchedAdapter.broadcast Sample.codec packet opts Sample.world
      = Return (mkWorld Sample.chat
          (effects Sample.world ++
             [Publish ("/chat" +:+ SEPARATOR +:+ "lobby") (TextFrame "42[ev]") false;
              Publish ("/chat" +:+ SEPARATOR +:+ "lobby") (BinaryFrame []) true] ++ [])).
Proof.
  refine (emit_to_one_room_publishes Sample.reserved 0 Sample.codec "ev" [] "lobby"
            [HSet []; HSet []; HFlags noFlags; HOperator 7 0 1 2] 3 7 noFlags
            Sample.world _ _ _).
  - exists 0, 1, 2. by repeat split.
  - by apply (bool_decide_unpack _).
  - intros f. simpl. discriminate.
Defined.

(** ** The proxy classes *)

Lemma proxy_ok_old (h k : Heap) (p : Proxy) : proxy_ok h p → proxy_ok (h ++ k) p.
Proof.
  induction p as [self|self w IH|self w IH|self w IH role]; simpl;
    intros [(ad & rs & ex & fl & Hop) Hw];
    (split; [exists ad, rs, ex, fl; by apply operator_at_old|auto]).
Qed.

Lemma emitVia_result (RESERVED_EVENTS : JSSet.t) (dflt : Z) (ev : string)
    (args : list value) (p : Proxy) : ∀ (h : Heap) ad rs ex fl,
  proxy_ok h p →
  operator_at h (innermost p) ad rs ex fl →
  ∃ k, emitVia RESERVED_EVENTS dflt p ev args h
       = Some (wrapOutcome p ev args
                 (emitOn RESERVED_EVENTS dflt ev args (mkOpts rs (Some ex) (Some fl))),
               h ++ k).
Proof.
  induction p as [self|self w IH|self w IH|self w IH role];
    intros h ad rs ex fl Hok Hin; simpl in *.
  - exists []. unfold mbind, HeapM_bind. rewrite (emit_on _ _ _ _ _ _ _ _ _ _ Hin).
    by rewrite app_nil_r.
  - destruct Hok as [_ Hw]. destruct (IH h ad rs ex fl Hw Hin) as [k Hrun].
    exists k. unfold mbind, HeapM_bind. rewrite Hrun.
    by destruct (wrapOutcome w ev args _).
  - destruct Hok as [_ Hw].
    assert (Hself : ∃ ad' rs' ex' fl', operator_at h (self_of w) ad' rs' ex' fl')
      by (destruct w; by destruct Hw as [? _]).
    destruct Hself as (ad' & rs' & ex' & fl' & Hself).
    destruct (chain_step (ChainCompress true) h _ ad' rs' ex' fl' Hself)
      as (b & k1 & Hc & _). simpl chain in Hc.
    destruct (IH (h ++ k1) ad rs ex fl (proxy_ok_old h k1 _ Hw)
                (operator_at_old h k1 _ _ _ _ _ Hin)) as [k2 Hrun].
    exists (k1 ++ k2). unfold mbind, HeapM_bind. rewrite Hc, Hrun.
    by rewrite <- app_assoc.
  - destruct Hok as [_ Hw]. destruct (hasPermission role).
    + by eapply IH.
    + exists []. by rewrite app_nil_r.
Qed.

(** X13. [CompressionBroadcastOperator.emit] changes nothing: the operator
    returned by [wrapped.compress(true)] is dropped, so the emit has the
    outcome, the adapter calls (with the flags the wrapped operator had) and
    the console output of the wrapped operator's own [emit]. *)
Theorem compression_proxy_changes_nothing (RESERVED_EVENTS : JSSet.t) (dflt : Z)
    (ev : string) (args : list value) (self : loc) (w : Proxy) (h : Heap)
    (ad : AdapterRef) (rs ex : JSSet.t) (fl : BroadcastFlags) :
  proxy_ok h (Compression self w) →
  operator_at h (innermost w) ad rs ex fl →
  ∃ out k1 k2,
    emitVia RESERVED_EVENTS dflt (Compression self w) ev args h = Some (out, h ++ k1)
    ∧ emitVia RESERVED_EVENTS dflt w ev args h = Some (out, h ++ k2)
    ∧ operator_at (h ++ k1) (innermost w) ad rs ex fl.
Proof.
  intros Hok Hin.
  destruct (emitVia_result RESERVED_EVENTS dflt ev args w h ad rs ex fl
              (proj2 Hok) Hin) as [k2 Hw].
  destruct (emitVia_result RESERVED_EVENTS dflt ev args (Compression self w)
              h ad rs ex fl Hok Hin) as [k1 Hc].
  eexists _, k1, k2. split; [exact Hc|]. split; [exact Hw|]. by apply operator_at_old.
Qed.

Lemma compression_proxy_changes_nothing_witness :
  let h := Sample.heap ++ [HOperator 7 0 1 2; HOperator 7 0 1 2; HOperator 7 0 1 2] in
  let w := Logging 5 (AccessControl 4 (Plain 3) "admin") in
  (∃ out k1 k2,
     emitVia Sample.reserved 0 (Compression 6 w) "foo" [VStr "bar"] h = Some (out, h ++ k1)
     ∧ emitVia Sample.reserved 0 w "foo" [VStr "bar"] h = Some (out, h ++ k2)
     ∧ operator_at (h ++ k1) 3 7 ["x"] [] noFlags)
  ∧ ∃ h', emitVia Sample.reserved 0 (Compression 6 w) "foo" [VStr "bar"] h
          = Some (([ConsoleLog ("Event " +:+ dquote +:+ "foo" +:+ dquote
                                  +:+ " is being emitted with args:") [VStr "bar"]],
                   Return (mkEmit true
                     [CallBroadcast (mkPacket EVENT None [VStr "foo"; VStr "bar"])
                        (mkOpts ["x"] (Some []) (Some noFlags))] None None)), h').
Proof.
  intros h w. split.
  - refine (compression_proxy_changes_nothing Sample.reserved 0 "foo" [VStr "bar"]
              6 w h 7 ["x"] [] noFlags _ _).
    + assert (Hop : ∀ l, l ∈ [3; 4; 5; 6] →
                ∃ ad rs ex fl, operator_at h l ad rs ex fl).
      { intros l Hl. exists 7, ["x"], [], noFlags, 0, 1, 2.
        repeat (apply elem_of_cons in Hl as [->|Hl]; [by repeat split|]).
        by apply elem_of_nil in Hl. }
      repeat split; apply Hop; by apply (bool_decide_unpack _).
    + exists 0, 1, 2. by repeat split.
  - eexists. by vm_compute.
Defined.

(** X14. Access control does not survive chaining. On an
    [AccessControlBroadcastOperator] built over an operator for a role other
    than [admin], [emit] is refused: it warns, returns [false] and sends
    nothing. But a chaining method called on the proxy is the inherited one
    and returns a plain operator, so [proxy.to(...).emit(...)] (or any other
    chaining call) broadcasts the event to the chained selector. *)
Theorem access_control_is_lost_by_chaining (RESERVED_EVENTS : JSSet.t) (dflt : Z)
    (userRole : string) (c : Chain) (ev : string) (args : list value)
    (h : Heap) (a : loc) (ad : AdapterRef) (rs ex : JSSet.t) (fl : BroadcastFlags) :
  operator_at h a ad rs ex fl →
  userRole ≠ "admin" →
  ev ∉ RESERVED_EVENTS →
  (∀ f, last (VStr ev :: args) ≠ Some (VFun f)) →
  ∃ p h1 b h2,
    AccessControlBroadcastOperator (Plain a) userRole h = Some (p, h1)
    ∧ emitVia RESERVED_EVENTS dflt p ev args h1
      = Some (([ConsoleWarn ("User with role " +:+ dquote +:+ userRole +:+ dquote
                               +:+ " does not have permission to emit event "
                               +:+ dquote +:+ ev +:+ dquote)],
               Return (mkEmit false [] None None)), h1)
    ∧ chainVia c p h1 = Some (Plain b, h2)
    ∧ emitVia RESERVED_EVENTS dflt (Plain b) ev args h2
      = Some (([], Return (mkEmit true
                 [CallBroadcast (mkPacket EVENT None (VStr ev :: args))
                    (mkOpts (chainedRooms c rs) (Some (chainedExcept c ex))
                       (Some (chainedFlags c fl)))] None None)), h2).
Proof.
  intros Hop Hrole Hres Hlast. pose proof Hop as (r & e & f & Hthis & Hr & He & Hf).
  assert (Hself : operator_at (h ++ [HOperator ad r e f]) (length h) ad rs ex fl).
  { exists r, e, f. rewrite lookup_last. repeat split; by apply lookup_old. }
  destruct (chain_step c _ _ ad rs ex fl Hself) as (b & k & Hrun & Hb).
  exists (AccessControl (length h) (Plain a) userRole), (h ++ [HOperator ad r e f]),
    b, ((h ++ [HOperator ad r e f]) ++ k).
  split.
  { unfold AccessControlBroadcastOperator, super, mbind, HeapM_bind, getOperator, new.
    simpl. by rewrite Hthis. }
  split.
  { simpl. unfold hasPermission. by rewrite (proj2 (String.eqb_neq _ _) Hrole). }
  split.
  { unfold chainVia, mbind, HeapM_bind. simpl. by rewrite Hrun. }
  simpl. unfold mbind, HeapM_bind. rewrite (emit_on _ _ _ _ _ _ _ _ _ _ Hb).
  unfold emitOn. rewrite (has_false _ _ Hres).
  destruct (last (VStr ev :: args)) as [[| | | | |g]|] eqn:E; try reflexivity.
  by destruct (Hlast g).
Qed.

Lemma access_control_is_lost_by_chaining_witness :
  ∃ p h1 b h2,
    AccessControlBroadcastOperator (Plain 3) "user" Sample.heap = Some (p, h1)
    ∧ emitVia Sample.reserved 0 p "foo" [VStr "bar"] h1
      = Some (([ConsoleWarn ("User with role " +:+ dquote +:+ "user" +:+ dquote
                               +:+ " does not have permission to emit event "
                               +:+ dquote +:+ "foo" +:+ dquote)],
               Return (mkEmit false [] None None)), h1)
    ∧ chainVia (ChainTo (One "room-101")) p h1 = Some (Plain b, h2)
    ∧ emitVia Sample.reserved 0 (Plain b) "foo" [VStr "bar"] h2
      = Some (([], Return (mkEmit true
                 [CallBroadcast (mkPacket EVENT None [VStr "foo"; VStr "bar"])
                    (mkOpts ["x"; "room-101"] (Some []) (Some noFlags))] None None)), h2).
Proof.
  refine (access_control_is_lost_by_chaining Sample.reserved 0 "user"
            (ChainTo (One "room-101")) "foo" [VStr "bar"] Sample.heap 3 7 ["x"] []
            noFlags sample_operator _ _ _).
  - discriminate.
  - by apply (bool_decide_unpack _).
  - intros f. simpl. discriminate.
Defined.

(** ** Administrative commands and remote handles *)

Lemma constructor_handle (ad : AdapterRef) (details : SocketDetails) (h : Heap) :
  ∃ this op rooms k,
    RemoteSocket.constructor ad details h = Some (this, h ++ k)
    ∧ (h ++ k) !! this
      = Some (HRemoteSocket (d_id details) (d_handshake details) rooms
                (d_data details) op)
    ∧ (h ++ k) !! rooms = Some (HSet (JSSet.of_list (d_rooms details)))
    ∧ operator_at (h ++ k) op ad [d_id details] []
        (mkFlags None None None None (Some true)).
Proof.
  pose proof (constructor_result ad details h) as Hnew. cbv zeta in Hnew.
  set (o1 := HSet (JSSet.of_list (d_rooms details))) in *.
  set (o2 := HSet [d_id details]) in *.
  set (o3 := HSet []) in *.
  set (o4 := HFlags (mkFlags None None None None (Some true))) in *.
  set (o5 := HOperator ad (length (h ++ [o1])) (length ((h ++ [o1]) ++ [o2]))
               (length (((h ++ [o1]) ++ [o2]) ++ [o3]))) in *.
  set (o6 := HRemoteSocket _ _ _ _ _) in *.
  assert (Heq : (((((h ++ [o1]) ++ [o2]) ++ [o3]) ++ [o4]) ++ [o5]) ++ [o6]
                = h ++ [o1; o2; o3; o4; o5; o6]) by (by rewrite <- !app_assoc).
  exists (length ((((h ++ [o1]) ++ [o2]) ++ [o3]) ++ [o4] ++ [o5])),
    (length ((((h ++ [o1]) ++ [o2]) ++ [o3]) ++ [o4])), (length h),
    [o1; o2; o3; o4; o5; o6].
  rewrite <- Heq. split; [by rewrite Hnew, <- !app_assoc|].
  split; [rewrite (app_assoc _ [o4] [o5]); apply lookup_last|].
  split; [do 5 apply lookup_old; apply lookup_last|].
  exists (length (h ++ [o1])), (length ((h ++ [o1]) ++ [o2])),
    (length (((h ++ [o1]) ++ [o2]) ++ [o3])).
  repeat split.
  - apply lookup_old, lookup_last.
  - do 4 apply lookup_old. apply lookup_last.
  - do 3 apply lookup_old. apply lookup_last.
  - do 2 apply lookup_old. apply lookup_last.
Qed.

(** X15. The commands of a remote socket handle reach the adapter scoped to
    that one socket: [join], [leave] and [disconnect] send [addSockets],
    [delSockets] and [disconnectSockets] with rooms [{id}], no exception and
    the [expectSingleResponse] flag; a single room is sent as a one-element
    list, [close] defaults to [false], [disconnect] returns the handle, and
    none of them touches the heap. *)
Theorem remote_socket_commands_target_its_id (ad : AdapterRef)
    (details : SocketDetails) (h : Heap) (room : RoomArg) (r : Room)
    (close : option bool) :
  let opts := mkOpts [d_id details] (Some [])
                (Some (mkFlags None None None None (Some true))) in
  ∃ this h',
    RemoteSocket.constructor ad details h = Some (this, h')
    ∧ RemoteSocket_join room this h' = Some (CallAddSockets opts (roomList room), h')
    ∧ RemoteSocket_join (One r) this h' = RemoteSocket_join (Many [r]) this h'
    ∧ RemoteSocket_leave r this h' = Some (CallDelSockets opts [r], h')
    ∧ RemoteSocket_disconnect close this h'
      = Some ((CallDisconnectSockets opts (default false close), this), h').
Proof.
  intros opts.
  destruct (constructor_handle ad details h) as (this & op & rooms & k & Hnew & Hthis & _ & Hop).
  exists this, (h ++ k). split; [exact Hnew|].
  assert (Hget : RemoteSocket.getOperatorOf this (h ++ k) = Some (op, h ++ k))
    by (unfold RemoteSocket.getOperatorOf; by rewrite Hthis).
  pose proof (selector_result _ _ _ _ _ _ Hop) as Hsel.
  unfold RemoteSocket_join, RemoteSocket_leave, RemoteSocket_disconnect,
    socketsJoin, socketsLeave, disconnectSockets, mbind, HeapM_bind.
  rewrite Hget, Hsel. repeat split.
Qed.

Lemma handle_for_old (h k : Heap) (ad : AdapterRef) (item : Fetched) (handle : Handle) :
  handle_for h ad item handle → handle_for (h ++ k) ad item handle.
Proof.
  destruct item, handle; simpl; try done.
  intros (rooms & op & H1 & H2 & H3). exists rooms, op.
  split; [by apply lookup_old|]. split; [by apply lookup_old|by apply operator_at_old].
Qed.

Lemma mapM_cons {A B} (f : A → HeapM B) (x : A) (l : list A) (h : Heap) :
  mapM f (x :: l) h
  = match f x h with
    | Some (y, h1) =>
        match mapM f l h1 with
        | Some (ys, h2) => Some (y :: ys, h2)
        | None => None
        end
    | None => None
    end.
Proof.
  simpl. unfold mbind, HeapM_bind. destruct (f x h) as [[y h1]|]; [|done].
  by destruct (mapM f l h1) as [[ys h2]|].
Qed.

Lemma wrap_fetched (ad : AdapterRef) (sockets : list Fetched) : ∀ h : Heap,
  ∃ handles k,
    mapM (λ socket,
            match socket with
            | FetchedLocal s => mret (LocalHandle s)
            | FetchedRemote d =>
                remote ← RemoteSocket.constructor ad d; mret (RemoteHandle remote)
            end) sockets h
    = Some (handles, h ++ k)
    ∧ Forall2 (handle_for (h ++ k) ad) sockets handles.
Proof.
  induction sockets as [|item sockets IH]; intros h.
  - exists [], []. rewrite app_nil_r. split; [done|constructor].
  - rewrite mapM_cons. destruct item as [s|d].
    + destruct (IH h) as (handles & k & Hrun & Hall).
      exists (LocalHandle s :: handles), k. cbv beta iota.
      assert (Hhead : (mret (LocalHandle s) : HeapM Handle) h = Some (LocalHandle s, h))
        by reflexivity.
      rewrite Hhead, Hrun. split; [done|]. by constructor.
    + destruct (constructor_handle ad d h) as (this & op & rooms & k1 & Hnew & H1 & H2 & H3).
      destruct (IH (h ++ k1)) as (handles & k2 & Hrun & Hall).
      exists (RemoteHandle this :: handles), (k1 ++ k2).
      cbv beta iota.
      assert (Hhead : (remote ← RemoteSocket.constructor ad d;
                       (mret (RemoteHandle remote) : HeapM Handle)) h
                      = Some (RemoteHandle this, h ++ k1)).
      { unfold mbind, HeapM_bind. by rewrite Hnew. }
      rewrite Hhead, Hrun. rewrite <- app_assoc in *. split; [done|].
      constructor; [|done]. rewrite app_assoc. apply handle_for_old.
      simpl. eauto.
Qed.

(** X16. [fetchSockets] hands out one handle per socket the adapter returned,
    in the same order: a live socket of this process is passed through as it
    is, the details of a remote one are wrapped in a new [RemoteSocket] with
    the same id, handshake, rooms (as a set) and data and with a private
    operator of the same adapter scoped to that id; the objects that
    existed before are left as they were. *)
Theorem fetched_sockets_are_wrapped (this : loc) (sockets : list Fetched)
    (h : Heap) (ad : AdapterRef) (rs ex : JSSet.t) (fl : BroadcastFlags) :
  operator_at h this ad rs ex fl →
  ∃ handles k,
    fetchSockets this h = Some (CallFetchSockets (mkOpts rs (Some ex) (Some fl)), h)
    ∧ fetchSockets_then this sockets h = Some (handles, h ++ k)
    ∧ Forall2 (handle_for (h ++ k) ad) sockets handles.
Proof.
  intros Hop. pose proof Hop as (r & e & f & Hthis & _).
  destruct (wrap_fetched ad sockets h) as (handles & k & Hrun & Hall).
  exists handles, k. split.
  { unfold fetchSockets, mbind, HeapM_bind. by rewrite (selector_result _ _ _ _ _ _ Hop). }
  split; [|done].
  unfold fetchSockets_then, mbind, HeapM_bind, getOperator. by rewrite Hthis.
Qed.

Lemma fetched_sockets_are_wrapped_witness :
  ∃ handles k,
    fetchSockets 3 Sample.heap
    = Some (CallFetchSockets (mkOpts ["x"] (Some []) (Some noFlags)), Sample.heap)
    ∧ fetchSockets_then 3 [FetchedLocal Sample.alice; FetchedRemote Sample.details]
        Sample.heap
      = Some (handles, Sample.heap ++ k)
    ∧ Forall2 (handle_for (Sample.heap ++ k) 7)
        [FetchedLocal Sample.alice; FetchedRemote Sample.details] handles.
Proof.
  exact (fetched_sockets_are_wrapped 3
           [FetchedLocal Sample.alice; FetchedRemote Sample.details]
           Sample.heap 7 ["x"] [] noFlags sample_operator).
Defined.

(** ** The connection log *)

Lemma lineBreaks_app (s1 s2 : string) :
  lineBreaks (s1 +:+ s2) = lineBreaks s1 + lineBreaks s2.
Proof. induction s1 as [|c s1 IH]; simpl; [done|]. rewrite IH. lia. Qed.

Lemma string_app_assoc (s1 s2 s3 : string) :
  (s1 +:+ s2) +:+ s3 = s1 +:+ (s2 +:+ s3).
Proof.
  induction s1 as [|c s1 IH]; [done|].
  change (String c ((s1 +:+ s2) +:+ s3) = String c (s1 +:+ (s2 +:+ s3))).
  by rewrite IH.
Qed.

(** X17. The entry [logConnection] appends for a connection ends with a line
    break and holds no other line break than those of the namespace name,
    the socket id and the timestamp; with clean values every logged
    connection is exactly one line of the log. *)
Theorem log_entry_is_one_line (namespace socketId timestamp : string) :
  lineBreaks (logEntry namespace socketId timestamp)
  = lineBreaks namespace + lineBreaks socketId + lineBreaks timestamp + 1
  ∧ ∃ body, logEntry namespace socketId timestamp = body +:+ newline
            ∧ lineBreaks body
              = lineBreaks namespace + lineBreaks socketId + lineBreaks timestamp.
Proof.
  split.
  - unfold logEntry. rewrite !lineBreaks_app. simpl. lia.
  - exists ("Namespace: " +:+ namespace +:+ ", Socket ID: " +:+ socketId
              +:+ ", Timestamp: " +:+ timestamp).
    split.
    + unfold logEntry. by rewrite !string_app_assoc.
    + rewrite !lineBreaks_app. simpl. lia.
Qed.

(** ** What chaining can never undo *)

Lemma addRooms_keeps (room : RoomArg) (s : JSSet.t) (r : Room) :
  r ∈ s → r ∈ addRooms room s.
Proof.
  intros Hr. destruct room as [x|xs]; simpl.
  - by apply JSSet_add_mono.
  - apply JSSet_elem_of_adds. by left.
Qed.

Lemma chained_only_widens (cs : list Chain) : ∀ (rs ex : JSSet.t) (fl : BroadcastFlags),
  (∀ r, r ∈ rs → r ∈ foldl (λ s c, chainedRooms c s) rs cs)
  ∧ (∀ r, r ∈ ex → r ∈ foldl (λ s c, chainedExcept c s) ex cs)
  ∧ f_expectSingleResponse (foldl (λ f c, chainedFlags c f) fl cs)
    = f_expectSingleResponse fl
  ∧ (f_volatile fl = Some true →
     f_volatile (foldl (λ f c, chainedFlags c f) fl cs) = Some true)
  ∧ (f_local fl = Some true →
     f_local (foldl (λ f c, chainedFlags c f) fl cs) = Some true).
Proof.
  induction cs as [|c cs IH]; intros rs ex fl; simpl; [done|].
  destruct (IH (chainedRooms c rs) (chainedExcept c ex) (chainedFlags c fl))
    as (Hrs & Hex & Hsingle & Hvol & Hloc).
  split; [intros r Hr; apply Hrs; destruct c; simpl; auto using addRooms_keeps|].
  split; [intros r Hr; apply Hex; destruct c; simpl; auto using addRooms_keeps|].
  split; [rewrite Hsingle; by destruct c|].
  split; intros H; [apply Hvol|apply Hloc]; by destruct c.
Qed.

(** X18. Chaining only ever widens a selector. Whatever chain of calls is
    applied to an operator, the result still targets every room and excludes
    every room the receiver did, still has [volatile] and [local] if the
    receiver had them, and has the receiver's [expectSingleResponse]: no
    chaining call removes a room or an exception or clears these flags. In
    particular every operator chained from a remote socket handle keeps
    [expectSingleResponse]. *)
Theorem chaining_only_widens (cs : list Chain) (h : Heap) (a : loc)
    (ad : AdapterRef) (rs ex : JSSet.t) (fl : BroadcastFlags) :
  operator_at h a ad rs ex fl →
  ∃ b k rs' ex' fl',
    chains cs a h = Some (b, h ++ k)
    ∧ operator_at (h ++ k) b ad rs' ex' fl'
    ∧ (∀ r, r ∈ rs → r ∈ rs')
    ∧ (∀ r, r ∈ ex → r ∈ ex')
    ∧ f_expectSingleResponse fl' = f_expectSingleResponse fl
    ∧ (f_volatile fl = Some true → f_volatile fl' = Some true)
    ∧ (f_local fl = Some true → f_local fl' = Some true).
Proof.
  intros Hop. destruct (chains_result cs h a ad rs ex fl Hop) as (b & k & Hrun & Hb).
  eexists b, k, _, _, _. split; [exact Hrun|]. split; [exact Hb|].
  apply chained_only_widens.
Qed.

Lemma chaining_only_widens_witness :
  ∃ b k rs' ex' fl',
    chains [ChainTimeout 1000; ChainTo (One "lobby"); ChainCompress false] 4
      [HSet ["alice"]; HSet []; HFlags (mkFlags None None None None (Some true));
       HOperator 7 0 1 2; HOperator 7 0 1 2]
    = Some (b, [HSet ["alice"]; HSet []; HFlags (mkFlags None None None None (Some true));
                HOperator 7 0 1 2; HOperator 7 0 1 2] ++ k)
    ∧ operator_at
        ([HSet ["alice"]; HSet []; HFlags (mkFlags None None None None (Some true));
          HOperator 7 0 1 2; HOperator 7 0 1 2] ++ k) b 7 rs' ex' fl'
    ∧ (∀ r, r ∈ ["alice"] → r ∈ rs')
    ∧ (∀ r, r ∈ [] → r ∈ ex')
    ∧ f_expectSingleResponse fl' = Some true
    ∧ (None = Some true → f_volatile fl' = Some true)
    ∧ (None = Some true → f_local fl' = Some true).
Proof.
  refine (chaining_only_widens
            [ChainTimeout 1000; ChainTo (One "lobby"); ChainCompress false]
            [HSet ["alice"]; HSet []; HFlags (mkFlags None None None None (Some true));
             HOperator 7 0 1 2; HOperator 7 0 1 2] 4 7 ["alice"] []
            (mkFlags None None None None (Some true)) _).
  exists 0, 1, 2. by repeat split.
Defined.
